(** * ikonik: the icon generation pipeline of [scripts/generate.ts]

    A shallow embedding of [generate] and [buildComponent], and of the
    JavaScript string operations they use, with the properties of the
    pipeline stated over it.

    Strings are JavaScript strings: sequences of UTF-16 code units, here
    [list N].  The collaborators the script imports (globby, svgo, svgr,
    prettier, change-case, handlebars, node:fs, node:path) are interfaces
    whose operations may throw.  A run is a computation over the trace of
    its effects (directories made, files written, console lines); the
    files it leaves are a finite map from paths to contents. *)

From Stdlib Require Import String Ascii NArith List Bool Arith Lia.
From stdpp Require Import base option list gmap.
Import ListNotations.

Local Open Scope N_scope.
Local Open Scope nat_scope.
Local Open Scope list_scope.

(** ** JavaScript strings *)

Module Js.

Definition str := list N.

(** A literal of the source text, as code units (ASCII only). *)
Definition lit (s : string) : str := map N_of_ascii (list_ascii_of_string s).

Definition dq : N := 34%N.       (* the double quote *)
Definition nl : N := 10%N.       (* line feed *)
Definition hyphen : N := 45%N.
Definition gt : N := 62%N.

(** [q s] is [s] between double quotes. *)
Definition q (s : str) : str := dq :: s ++ [dq].

(** Joining the lines of a multi-line template literal. *)
Fixpoint join (sep : str) (l : list str) : str :=
  match l with
  | [] => []
  | [x] => x
  | x :: rest => x ++ sep ++ join sep rest
  end.

Definition lines (l : list str) : str := join [nl] l.

(** [s.startsWith(p)], returning what follows the prefix. *)
Fixpoint strip_prefix (p s : str) : option str :=
  match p, s with
  | [], _ => Some s
  | a :: p', b :: s' => if N.eqb a b then strip_prefix p' s' else None
  | _ :: _, [] => None
  end.

(** [s.includes(p)] *)
Fixpoint includes (p s : str) : bool :=
  match strip_prefix p s with
  | Some _ => true
  | None => match s with
            | [] => false
            | _ :: s' => includes p s'
            end
  end.

(** [s.split(c)] for a separator of one code unit. *)
Fixpoint split (c : N) (s : str) : list str :=
  match s with
  | [] => [[]]
  | x :: s' =>
      if N.eqb x c then [] :: split c s'
      else match split c s' with
           | [] => [[x]]
           | t :: ts => (x :: t) :: ts
           end
  end.

(** WhiteSpace and LineTerminator code units, as [String.prototype.trim]
    strips them. *)
Definition is_space (c : N) : bool :=
  existsb (N.eqb c)
    [9; 10; 11; 12; 13; 32; 160; 5760; 8232; 8233; 8239; 8287; 12288; 65279]%N
  || ((8192 <=? c) && (c <=? 8202))%N.

Fixpoint trimStart (s : str) : str :=
  match s with
  | [] => []
  | c :: s' => if is_space c then trimStart s' else s
  end.

Definition trimEnd (s : str) : str := rev (trimStart (rev s)).

Definition trim (s : str) : str := trimEnd (trimStart s).

(** *** The two regular expressions of the script *)

(** [[^c]*c] at the head of [s]: what follows the first [c]. *)
Fixpoint after_first (c : N) (s : str) : option str :=
  match s with
  | [] => None
  | x :: s' => if N.eqb x c then Some s' else after_first c s'
  end.

(** One match of [name=Q[^Q]*Q] at the head of [s], Q being the double
    quote: what follows the match. *)
Definition attr_match (name s : str) : option str :=
  match strip_prefix (name ++ lit "=" ++ [dq]) s with
  | Some rest => after_first dq rest
  | None => None
  end.

(** [s.replaceAll(/name=Q[^Q]*Q/g, empty)]: the scan goes left to right,
    and after a match it resumes behind it.  [fuel] bounds the steps; the
    length of [s] is enough, see [remove_attr_eq]. *)
Fixpoint remove_attr_fuel (fuel : nat) (name s : str) : str :=
  match fuel with
  | O => s
  | S fuel' =>
      match attr_match name s with
      | Some rest => remove_attr_fuel fuel' name rest
      | None =>
          match s with
          | [] => []
          | c :: s' => c :: remove_attr_fuel fuel' name s'
          end
      end
  end.

Definition remove_attr (name s : str) : str :=
  remove_attr_fuel (length s) name s.

(** [s] up to the first occurrence of [p], and what follows that
    occurrence: the lazy [([\s\S]*?)p]. *)
Fixpoint until (p s : str) : option (str * str) :=
  match strip_prefix p s with
  | Some rest => Some ([], rest)
  | None =>
      match s with
      | [] => None
      | c :: s' =>
          match until p s' with
          | Some (body, rest) => Some (c :: body, rest)
          | None => None
          end
      end
  end.

(** The regular expression [<svg[^>]*>([\s\S]*?)<\/svg>] tried at the head
    of [s]: capture group 1. *)
Definition svg_match_here (s : str) : option str :=
  match strip_prefix (lit "<svg") s with
  | Some rest =>
      match after_first gt rest with
      | Some rest' =>
          match until (lit "</svg>") rest' with
          | Some (body, _) => Some body
          | None => None
          end
      | None => None
      end
  | None => None
  end.

(** [s.match(/<svg[^>]*>([\s\S]*?)<\/svg>/)?.[1]]: the leftmost position
    where the expression matches. *)
Fixpoint svg_match (s : str) : option str :=
  match svg_match_here s with
  | Some body => Some body
  | None =>
      match s with
      | [] => None
      | _ :: s' => svg_match s'
      end
  end.

End Js.

Import Js.

(** ** Numbers and JSON text *)

Fixpoint uint_digits (d : Decimal.uint) : str :=
  match d with
  | Decimal.Nil => []
  | Decimal.D0 d' => 48%N :: uint_digits d'
  | Decimal.D1 d' => 49%N :: uint_digits d'
  | Decimal.D2 d' => 50%N :: uint_digits d'
  | Decimal.D3 d' => 51%N :: uint_digits d'
  | Decimal.D4 d' => 52%N :: uint_digits d'
  | Decimal.D5 d' => 53%N :: uint_digits d'
  | Decimal.D6 d' => 54%N :: uint_digits d'
  | Decimal.D7 d' => 55%N :: uint_digits d'
  | Decimal.D8 d' => 56%N :: uint_digits d'
  | Decimal.D9 d' => 57%N :: uint_digits d'
  end.

(** [String(n)] for an array length [n]. *)
Definition decimal (n : nat) : str := uint_digits (Nat.to_uint n).

Definition hex_digit (n : N) : N :=
  if (n <? 10)%N then (48 + n)%N else (87 + n)%N.

(** The escape [\uXXXX] of a code unit, in lower-case hexadecimal. *)
Definition unicode_escape (c : N) : str :=
  [92%N; 117%N;
   hex_digit (N.shiftr c 12 mod 16); hex_digit (N.shiftr c 8 mod 16);
   hex_digit (N.shiftr c 4 mod 16); hex_digit (c mod 16)].

Definition is_lead (c : N) : bool := ((55296 <=? c) && (c <=? 56319))%N.
Definition is_trail (c : N) : bool := ((56320 <=? c) && (c <=? 57343))%N.

(** QuoteJSONString without the surrounding quotes; a surrogate that has
    no partner is written as an escape. *)
Fixpoint json_escape (s : str) : str :=
  match s with
  | [] => []
  | c :: s' =>
      if (c =? 8)%N then lit "\b" ++ json_escape s'
      else if (c =? 9)%N then lit "\t" ++ json_escape s'
      else if (c =? 10)%N then lit "\n" ++ json_escape s'
      else if (c =? 12)%N then lit "\f" ++ json_escape s'
      else if (c =? 13)%N then lit "\r" ++ json_escape s'
      else if (c =? 34)%N then [92%N; 34%N] ++ json_escape s'
      else if (c =? 92)%N then [92%N; 92%N] ++ json_escape s'
      else if (c <? 32)%N then unicode_escape c ++ json_escape s'
      else if is_lead c then
        match s' with
        | d :: s'' =>
            if is_trail d then c :: d :: json_escape s''
            else unicode_escape c ++ json_escape s'
        | [] => unicode_escape c
        end
      else if is_trail c then unicode_escape c ++ json_escape s'
      else c :: json_escape s'
  end.

#[local] Set Warnings "-register-all".
Inductive json :=
| JNumber (n : nat)
| JString (s : str)
| JArray (items : list json)
| JObject (members : list (str * json)).

(** [JSON.stringify(v, null, 2)] at indentation [ind]. *)
Fixpoint stringify (ind : str) (v : json) : str :=
  let ind' := ind ++ lit "  " in
  match v with
  | JNumber n => decimal n
  | JString s => q (json_escape s)
  | JArray [] => lit "[]"
  | JArray items =>
      lit "[" ++ [nl]
      ++ join (lit "," ++ [nl]) (map (fun x => ind' ++ stringify ind' x) items)
      ++ [nl] ++ ind ++ lit "]"
  | JObject [] => lit "{}"
  | JObject members =>
      lit "{" ++ [nl]
      ++ join (lit "," ++ [nl])
           (map (fun kv => ind' ++ q (json_escape (fst kv)) ++ lit ": "
                           ++ stringify ind' (snd kv)) members)
      ++ [nl] ++ ind ++ lit "}"
  end.

Definition JSON_stringify (v : json) : str := stringify [] v.

(** ** Collaborators *)

(** The libraries [generate] imports.  [exn] is what they throw, [number]
    a JavaScript number with its conversion to text. *)
Class Adapters := {
  exn : Type;
  number : Type;
  number_toString : number -> str;
  path_join : str -> str -> str;
  path_basename : str -> str -> str;
  pascalCase : str -> str;
  svgo_optimize : str -> exn + str;
  svgr_transform : str -> exn + str;
  prettier_format : str -> exn + str;
  handlebars_escape : str -> str;
}.

(** The file system as a run meets it: the enumeration of a directory, the
    content of a file, and whether creating a directory or writing a file
    succeeds.  A run reads source files only, which end in .svg, and
    writes files that end in .tsx, .ts and .json: what it reads does not
    depend on what it has written. *)
Record Disk `{Adapters} := {
  globby : str -> str -> exn + list str;
  fs_readFile : str -> exn + str;
  fs_mkdir : str -> option exn;
  fs_writeFile : str -> str -> option exn;
}.

(** ** Effects *)

Inductive event :=
| Mkdir (dir : str)
| WriteFile (path content : str)
| ConsoleLog (msg : str)
| ConsoleWarn (msg : str).

Definition trace := list event.

Section Effects.
Context `{Adapters}.

Inductive thrown :=
| Error (message : str)
| Raised (e : exn).

Inductive result (A : Type) :=
| Ok (a : A)
| Throw (t : thrown).
#[global] Arguments Ok {A} a.
#[global] Arguments Throw {A} t.

(** A computation runs on the trace of the effects so far and either
    returns or throws; the effects done before a throw stay. *)
Definition M (A : Type) : Type := trace -> result A * trace.

Definition ret {A} (a : A) : M A := fun tr => (Ok a, tr).

Definition bind {A B} (m : M A) (k : A -> M B) : M B :=
  fun tr =>
    match m tr with
    | (Ok a, tr') => k a tr'
    | (Throw t, tr') => (Throw t, tr')
    end.

Definition throw {A} (t : thrown) : M A := fun tr => (Throw t, tr).

Definition emit (e : event) : M unit := fun tr => (Ok tt, tr ++ [e]).

(** A call into a library that returns or throws. *)
Definition call {A} (r : exn + A) : M A :=
  match r with
  | inl e => throw (Raised e)
  | inr a => ret a
  end.

(** A file-system operation with an effect: recorded when it succeeds. *)
Definition perform (failure : option exn) (e : event) : M unit :=
  match failure with
  | Some x => throw (Raised x)
  | None => emit e
  end.

End Effects.

Notation "'let*' x ':=' m 'in' k" := (bind m (fun x => k))
  (at level 10, x name, m at level 100, k at level 200).
Notation "'run' m 'in' k" := (bind m (fun _ => k))
  (at level 10, m at level 100, k at level 200).

(** ** The generator *)

Section Generate.
Context `{Adapters}.

Record Opts := {
  srcDir : str;
  outDir : str;
  prefix : option str;
  defaultSize : number;
  defaultStrokeWidth : number;
  filled : bool;
}.

Record ComponentData := {
  componentName : str;
  svgBody : str;
  cd_defaultSize : number;
  cd_defaultStrokeWidth : number;
  fill : str;
  stroke : str;
  cd_filled : bool;
}.

Definition buildComponent (data : ComponentData) : str :=
  let strokeWidthValue :=
    if cd_filled data then lit "undefined as any" else lit "strokeWidth" in
  let name := componentName data in
  lines [
    lit "import * as React from " ++ q (lit "react") ++ lit ";";
    [];
    lit "export interface " ++ name
      ++ lit "Props extends React.SVGProps<SVGSVGElement> {";
    lit "  title?: string;";
    lit "  titleId?: string;";
    lit "  size?: number;";
    lit "  strokeWidth?: number;";
    lit "}";
    [];
    lit "const " ++ name
      ++ lit " = React.memo(React.forwardRef<SVGSVGElement, " ++ name
      ++ lit "Props>(";
    lit "  ({ title, titleId, size = " ++ number_toString (cd_defaultSize data)
      ++ lit ", strokeWidth = "
      ++ number_toString (cd_defaultStrokeWidth data)
      ++ lit ", ...props }, ref) => {";
    lit "    return (";
    lit "      <svg";
    lit "        ref={ref}";
    lit "        width={size}";
    lit "        height={size}";
    lit "        aria-hidden={title ? undefined : " ++ q (lit "true") ++ lit "}";
    lit "        aria-labelledby={title ? titleId : undefined}";
    lit "        role={title ? " ++ q (lit "img") ++ lit " : "
      ++ q (lit "presentation") ++ lit "}";
    lit "        viewBox=" ++ q (lit "0 0 24 24");
    lit "        fill=" ++ q (fill data);
    lit "        stroke=" ++ q (stroke data);
    lit "        strokeWidth={" ++ strokeWidthValue ++ lit "}";
    lit "        strokeLinecap=" ++ q (lit "round");
    lit "        strokeLinejoin=" ++ q (lit "round");
    lit "        {...props}";
    lit "      >";
    lit "        {title ? <title id={titleId}>{title}</title> : null}";
    lit "        " ++ svgBody data;
    lit "      </svg>";
    lit "    );";
    lit "  }";
    lit "));";
    [];
    name ++ lit ".displayName = " ++ q name ++ lit ";";
    lit "export default " ++ name ++ lit ";";
    []
  ].

(** An element of [entries]. *)
Record Entry := {
  name : str;
  file : str;
  tags : list str;
}.

(** [INDEX_TEMPLATE] compiled and applied to [{ entries }]: the body of the
    [each] block once per entry, the two fields escaped as handlebars
    escapes an expression in double braces. *)
Definition indexTpl (entries : list Entry) : str :=
  concat (map (fun e =>
    lit "export { default as " ++ handlebars_escape (name e)
    ++ lit " } from " ++ q (lit "./" ++ handlebars_escape (file e))
    ++ lit ";" ++ [nl]) entries).

Definition entry_json (e : Entry) : json :=
  JObject [ (lit "name", JString (name e));
            (lit "file", JString (file e));
            (lit "tags", JArray (map JString (tags e))) ].

(** The object [{ count: entries.length, icons: entries }]. *)
Definition metadata (entries : list Entry) : json :=
  JObject [ (lit "count", JNumber (length entries));
            (lit "icons", JArray (map entry_json entries)) ].

(** The body extracted from svgr's output: lines 121 to 123, and the
    [trim] of line 132. *)
Definition strip_colors (raw : str) : str :=
  remove_attr (lit "stroke") (remove_attr (lit "fill") raw).

Definition sanitize (raw : str) : str := trim (strip_colors raw).

(** Capture group 1 of the match, or the empty string. *)
Definition raw_body (jsx : str) : str :=
  match svg_match jsx with Some body => body | None => [] end.

Definition inner_of (jsx : str) : str := strip_colors (raw_body jsx).

Definition tsx_of (opts : Opts) (compName body : str) : str :=
  buildComponent {|
    componentName := compName;
    svgBody := body;
    cd_defaultSize := defaultSize opts;
    cd_defaultStrokeWidth := defaultStrokeWidth opts;
    fill := if filled opts then lit "currentColor" else lit "none";
    stroke := if filled opts then lit "none" else lit "currentColor";
    cd_filled := filled opts;
  |}.

Variable disk : Disk.

(** The body of the [for] loop, for the file [rel], on the entries
    collected so far. *)
Definition process_file (opts : Opts) (rel : str) (entries : list Entry)
  : M (list Entry) :=
  let abs := path_join (srcDir opts) rel in
  let* svgRaw := call (fs_readFile disk abs) in
  if negb (includes (lit "<svg") svgRaw) then
    run emit (ConsoleWarn ([9888; 65039]%N ++ lit "  Skipping invalid SVG: "
                           ++ rel)) in
    ret entries
  else
    let* svgOptimized := call (svgo_optimize svgRaw) in
    let* jsx := call (svgr_transform svgOptimized) in
    let inner := inner_of jsx in
    let base := path_basename rel (lit ".svg") in
    let compName :=
      pascalCase ((match prefix opts with Some p => p | None => [] end)
                  ++ base) in
    let fileName := pascalCase base in
    let tsx := tsx_of opts compName (trim inner) in
    let* pretty := call (prettier_format tsx) in
    let outPath := path_join (outDir opts) (fileName ++ lit ".tsx") in
    run perform (fs_writeFile disk outPath pretty) (WriteFile outPath pretty) in
    let entries' :=
      entries ++ [{| name := compName; file := fileName;
                     tags := split hyphen base |}] in
    run emit (ConsoleLog (lit "  " ++ [10003%N] ++ lit " " ++ base ++ lit " "
                          ++ [8594%N] ++ lit " " ++ compName)) in
    ret entries'.

Fixpoint for_of (opts : Opts) (files : list str) (entries : list Entry)
  : M (list Entry) :=
  match files with
  | [] => ret entries
  | rel :: rest =>
      let* entries' := process_file opts rel entries in
      for_of opts rest entries'
  end.

Definition generate (opts : Opts) : M unit :=
  run perform (fs_mkdir disk (outDir opts)) (Mkdir (outDir opts)) in
  let* files := call (globby disk (lit "**/*.svg") (srcDir opts)) in
  if Nat.eqb (length files) 0 then
    throw (Error (lit "No SVG files found in " ++ srcDir opts))
  else
    run emit (ConsoleLog ([55357; 56550]%N ++ lit " Found "
                          ++ decimal (length files) ++ lit " SVG file(s)")) in
    let* entries := for_of opts files [] in
    let* indexCode := call (prettier_format (indexTpl entries)) in
    let indexPath := path_join (outDir opts) (lit "index.ts") in
    run perform (fs_writeFile disk indexPath indexCode)
          (WriteFile indexPath indexCode) in
    let metaPath := path_join (outDir opts) (lit "metadata.json") in
    let metaText := JSON_stringify (metadata entries) in
    run perform (fs_writeFile disk metaPath metaText)
          (WriteFile metaPath metaText) in
    emit (ConsoleLog ([nl] ++ [55357; 56516]%N
                      ++ lit " Generated index.ts with "
                      ++ decimal (length entries) ++ lit " exports")).

(** *** Summaries of a run, for the statements

    What the loop body computes for [rel] before it touches the output
    directory, and the effects that follow from it. *)

Definition base_of (rel : str) : str := path_basename rel (lit ".svg").

Definition prefix_text (opts : Opts) : str :=
  match prefix opts with Some p => p | None => [] end.

Definition entry_of (opts : Opts) (rel : str) : Entry :=
  {| name := pascalCase (prefix_text opts ++ base_of rel);
     file := pascalCase (base_of rel);
     tags := split hyphen (base_of rel) |}.

Definition out_path (opts : Opts) (rel : str) : str :=
  path_join (outDir opts) (pascalCase (base_of rel) ++ lit ".tsx").

(** The input contains the vector-root marker. *)
Definition is_valid (opts : Opts) (rel : str) : bool :=
  match fs_readFile disk (path_join (srcDir opts) rel) with
  | inr svgRaw => includes (lit "<svg") svgRaw
  | inl _ => false
  end.

(** The formatted component of [rel]; [None] when the file is skipped. *)
Definition component_of (opts : Opts) (rel : str) : result (option str) :=
  match fs_readFile disk (path_join (srcDir opts) rel) with
  | inl e => Throw (Raised e)
  | inr svgRaw =>
      if negb (includes (lit "<svg") svgRaw) then Ok None
      else
        match svgo_optimize svgRaw with
        | inl e => Throw (Raised e)
        | inr svgOptimized =>
            match svgr_transform svgOptimized with
            | inl e => Throw (Raised e)
            | inr jsx =>
                match prettier_format
                        (tsx_of opts (name (entry_of opts rel))
                           (sanitize (raw_body jsx))) with
                | inl e => Throw (Raised e)
                | inr pretty => Ok (Some pretty)
                end
            end
        end
  end.

Definition warning_of (rel : str) : event :=
  ConsoleWarn ([9888; 65039]%N ++ lit "  Skipping invalid SVG: " ++ rel).

Definition success_of (opts : Opts) (rel : str) : event :=
  ConsoleLog (lit "  " ++ [10003%N] ++ lit " " ++ base_of rel ++ lit " "
              ++ [8594%N] ++ lit " " ++ name (entry_of opts rel)).

(** The effects of the loop body on [rel], when it does not throw. *)
Definition events_of (opts : Opts) (rel : str) : list event :=
  match component_of opts rel with
  | Ok (Some pretty) => [WriteFile (out_path opts rel) pretty; success_of opts rel]
  | Ok None => [warning_of rel]
  | Throw _ => []
  end.

(** The entries of a run: one per valid file, in enumeration order. *)
Definition manifest (opts : Opts) (files : list str) : list Entry :=
  map (entry_of opts) (List.filter (is_valid opts) files).

(** The text written for a valid [rel]. *)
Definition text_of (opts : Opts) (rel : str) : str :=
  match component_of opts rel with
  | Ok (Some pretty) => pretty
  | _ => []
  end.

Definition index_path (opts : Opts) : str :=
  path_join (outDir opts) (lit "index.ts").

Definition metadata_path (opts : Opts) : str :=
  path_join (outDir opts) (lit "metadata.json").

Definition found_of (n : nat) : event :=
  ConsoleLog ([55357; 56550]%N ++ lit " Found " ++ decimal n
              ++ lit " SVG file(s)").

Definition generated_of (n : nat) : event :=
  ConsoleLog ([nl] ++ [55357; 56516]%N ++ lit " Generated index.ts with "
              ++ decimal n ++ lit " exports").

(** The message of the error thrown on an empty enumeration. *)
Definition no_input_files (opts : Opts) : thrown :=
  Error (lit "No SVG files found in " ++ srcDir opts).

End Generate.

(** ** Reading the root element of a component text

    The attributes of an opening tag, as written: a name, and a value that
    is a quoted text or an expression in braces; a spread has no name. *)

Inductive lex_state :=
| Between
| InName (name : str)
| AfterEquals (name : str)
| InQuotes (name value : str)
| InBraces (name value : str) (depth : nat).

(** [name] and [value] are collected in reverse. *)
Fixpoint jsx_attrs (st : lex_state) (acc : list (str * str)) (s : str)
  : option (list (str * str)) :=
  match s with
  | [] => None
  | c :: s' =>
      match st with
      | Between =>
          if is_space c then jsx_attrs Between acc s'
          else if (c =? gt)%N then Some (rev acc)
          else if (c =? 123)%N then jsx_attrs (InBraces [] [c] 1) acc s'
          else jsx_attrs (InName [c]) acc s'
      | InName name =>
          if (c =? 61)%N then jsx_attrs (AfterEquals name) acc s'
          else if is_space c then jsx_attrs Between ((rev name, []) :: acc) s'
          else if (c =? gt)%N then Some (rev ((rev name, []) :: acc))
          else jsx_attrs (InName (c :: name)) acc s'
      | AfterEquals name =>
          if (c =? dq)%N then jsx_attrs (InQuotes name [c]) acc s'
          else if (c =? 123)%N then jsx_attrs (InBraces name [c] 1) acc s'
          else None
      | InQuotes name value =>
          if (c =? dq)%N
          then jsx_attrs Between ((rev name, rev (c :: value)) :: acc) s'
          else jsx_attrs (InQuotes name (c :: value)) acc s'
      | InBraces name value depth =>
          if (c =? 123)%N
          then jsx_attrs (InBraces name (c :: value) (S depth)) acc s'
          else if (c =? 125)%N then
            match depth with
            | 1 => jsx_attrs Between ((rev name, rev (c :: value)) :: acc) s'
            | _ => jsx_attrs (InBraces name (c :: value) (pred depth)) acc s'
            end
          else jsx_attrs (InBraces name (c :: value) depth) acc s'
      end
  end.

(** The attributes of the first svg element of [text]. *)
Definition root_attrs (text : str) : option (list (str * str)) :=
  match until (lit "<svg") text with
  | Some (_, rest) => jsx_attrs Between [] rest
  | None => None
  end.

Definition root_attr (text k : str) : option str :=
  match root_attrs text with
  | Some attrs => snd <$> List.find (fun kv => bool_decide (fst kv = k)) attrs
  | None => None
  end.

(** No opening angle bracket in [s]. *)
Definition no_angle (s : str) : bool := forallb (fun c => negb (c =? 60)%N) s.

(** [p] cannot start at the head of [s ++ t], whatever [t] is. *)
Fixpoint mismatch (p s : str) : bool :=
  match p, s with
  | a :: p', b :: s' => if N.eqb a b then mismatch p' s' else true
  | _, _ => false
  end.

(** [p] cannot start anywhere in [s], whatever follows [s]. *)
Fixpoint no_start (p s : str) : bool :=
  match s with
  | [] => true
  | _ :: s' => mismatch p s && no_start p s'
  end.

(** ** Occurrences of an attribute

    [name=Q] stands at the head of [s], Q being the double quote. *)
Definition opens (name s : str) : bool :=
  match strip_prefix (name ++ lit "=" ++ [dq]) s with
  | Some _ => true
  | None => false
  end.

(** The expression [name=Q[^Q]*Q] matches somewhere in [s]. *)
Fixpoint has_attr (name s : str) : bool :=
  match attr_match name s with
  | Some _ => true
  | None => match s with
            | [] => false
            | _ :: s' => has_attr name s'
            end
  end.

(** Every [name=Q] in [s] stands directly after a white-space code unit;
    [ok] tells whether one may stand at the head of [s]. *)
Fixpoint guarded (name : str) (ok : bool) (s : str) : bool :=
  match s with
  | [] => true
  | c :: s' => (negb (opens name s) || ok) && guarded name (is_space c) s'
  end.

(** No white-space code unit in [s]. *)
Definition solid (s : str) : bool := forallb (fun c => negb (is_space c)) s.

(** ** Lower case *)

(** No upper-case ASCII letter in [s]: what [s.toLowerCase()] would change
    first. *)
Definition is_lowercase (s : str) : bool :=
  forallb (fun c => negb ((65 <=? c) && (c <=? 90))%N) s.

(** ** Observing a trace *)

(** The calls of [fs.writeFile], in order. *)
Definition writes (tr : trace) : list (str * str) :=
  flat_map (fun ev => match ev with
                      | WriteFile p c => [(p, c)]
                      | _ => []
                      end) tr.

(** The files the calls leave behind: a later write to a path replaces
    the earlier one. *)
Definition files_written (tr : trace) : gmap str str :=
  foldl (fun m w => <[fst w := snd w]> m) ∅ (writes tr).

(** The value of a member of a JSON object. *)
Definition json_member (k : str) (v : json) : option json :=
  match v with
  | JObject members =>
      snd <$> List.find (fun kv => bool_decide (fst kv = k)) members
  | _ => None
  end.

(** ** A concrete world

    The collaborators as the test suite mocks them: prettier returns its
    input, svgr wraps the document in the template of the script, svgo
    returns the document, or throws on one whose root is never closed.
    Numbers are carried as their decimal text. *)

Module TestWorld.

Definition is_alnum (c : N) : bool :=
  ((48 <=? c) && (c <=? 57) || (65 <=? c) && (c <=? 90)
   || (97 <=? c) && (c <=? 122))%N.

Definition upper (c : N) : N :=
  if ((97 <=? c) && (c <=? 122))%N then (c - 32)%N else c.

(** Modelled from the spec: [pascalCase] of the change-case package, which
    is not part of the sources: each hyphen- or non-alphanumeric-delimited
    segment capitalized and concatenated, no separators retained.
    [fresh] tells that the next alphanumeric code unit starts a segment. *)
Fixpoint pascal (fresh : bool) (s : str) : str :=
  match s with
  | [] => []
  | c :: s' =>
      if is_alnum c then (if fresh then upper c else c) :: pascal false s'
      else pascal true s'
  end.

(** Modelled from the spec: [path.basename] of node, which is not part of
    the sources: the path segment without directory and without the
    vector-file extension. *)
Fixpoint last_segment (acc s : str) : str :=
  match s with
  | [] => acc
  | c :: s' => if (c =? 47)%N then last_segment [] s'
               else last_segment (acc ++ [c]) s'
  end.

Definition basename (path ext : str) : str :=
  let seg := last_segment [] path in
  match strip_prefix (rev ext) (rev seg) with
  | Some ((_ :: _) as r) => rev r
  | _ => seg
  end.

(** Modelled from the spec: [path.join] of node, which is not part of the
    sources: the source root joined with the relative path. *)
Definition join_path (dir rel : str) : str := dir ++ lit "/" ++ rel.

(** Modelled from the handlebars documentation: the characters an
    expression in double braces has escaped. *)
Definition escape_char (c : N) : str :=
  if (c =? 38)%N then lit "&amp;"
  else if (c =? 60)%N then lit "&lt;"
  else if (c =? 62)%N then lit "&gt;"
  else if (c =? 34)%N then lit "&quot;"
  else if (c =? 39)%N then lit "&#x27;"
  else if (c =? 96)%N then lit "&#x60;"
  else if (c =? 61)%N then lit "&#x3D;"
  else [c].

Definition svgo (doc : str) : str + str :=
  if includes (lit "</svg>") doc then inr doc
  else inl (lit "SvgoParserError: unclosed root tag").

#[local] Instance adapters : Adapters := {|
  exn := str;
  number := str;
  number_toString := fun n => n;
  path_join := join_path;
  path_basename := basename;
  pascalCase := pascal true;
  svgo_optimize := svgo;
  svgr_transform := fun doc =>
    inr (lit "export default () => (" ++ doc ++ lit ");");
  prettier_format := fun code => inr code;
  handlebars_escape := fun s => concat (map escape_char s);
|}.

(** A source tree given by its files, as relative path and content. *)
Fixpoint content_of (tree : list (str * str)) (path : str) : str + str :=
  match tree with
  | [] => inl (lit "ENOENT")
  | (p, c) :: rest =>
      if bool_decide (p = path) then inr c else content_of rest path
  end.

Definition disk_of (src : str) (tree : list (str * str)) : Disk := {|
  globby := fun _ cwd =>
    inr (if bool_decide (cwd = src) then map fst tree else []);
  fs_readFile := content_of (map (fun f => (join_path src (fst f), snd f)) tree);
  fs_mkdir := fun _ => None;
  fs_writeFile := fun _ _ => None;
|}.

Definition defaultOpts : Opts := {|
  srcDir := lit "/test/src";
  outDir := lit "/test/out";
  prefix := Some (lit "Icon");
  defaultSize := lit "24";
  defaultStrokeWidth := lit "2";
  filled := false;
|}.

Definition src : str := lit "/test/src".

Definition path_svg : str :=
  lit "<svg><path d=" ++ q (lit "M10 10") ++ lit "/></svg>".

(** Three files, the second without the marker. *)
Definition icons : list (str * str) :=
  [ (lit "arrow-left-circle.svg", path_svg);
    (lit "invalid.svg", lit "not an svg");
    (lit "home.svg", path_svg) ].

(** A base name with capitals. *)
Definition capitals : list (str * str) := [ (lit "Arrow-Left.svg", path_svg) ].

(** The same base name in two directories. *)
Definition colliding : list (str * str) :=
  [ (lit "a/icon.svg", path_svg); (lit "b/icon.svg", path_svg) ].

(** A document svgo rejects, before a good one. *)
Definition broken_first : list (str * str) :=
  [ (lit "broken.svg", lit "<svg><path"); (lit "home.svg", path_svg) ].

Definition no_files : Disk := disk_of src [].
Definition icons_disk : Disk := disk_of src icons.
Definition capitals_disk : Disk := disk_of src capitals.
Definition colliding_disk : Disk := disk_of src colliding.
Definition broken_disk : Disk := disk_of src broken_first.

(** The disk of [icons] after a run: the generated files are there too. *)
Definition icons_disk_again : Disk := {|
  globby := globby icons_disk;
  fs_readFile := fun path =>
    if bool_decide (path = lit "/test/out/Home.tsx") then inr (lit "stale")
    else fs_readFile icons_disk path;
  fs_mkdir := fun _ => None;
  fs_writeFile := fun _ _ => None;
|}.

End TestWorld.

(** ** Reading a JSON string

    [JSON.parse], as the test suite applies it to the metadata document,
    on a string: the text between the double quotes, with its escapes. *)

Definition hex_value (c : N) : option N :=
  if ((48 <=? c) && (c <=? 57))%N then Some (c - 48)%N
  else if ((97 <=? c) && (c <=? 102))%N then Some (c - 87)%N
  else if ((65 <=? c) && (c <=? 70))%N then Some (c - 55)%N
  else None.

Definition hex4 (a b c d : N) : option N :=
  match hex_value a, hex_value b, hex_value c, hex_value d with
  | Some x3, Some x2, Some x1, Some x0 =>
      Some (((x3 * 16 + x2) * 16 + x1) * 16 + x0)%N
  | _, _, _, _ => None
  end.

(** The code unit of an escape of one letter. *)
Definition simple_escape (e : N) : option N :=
  if (e =? 34)%N then Some 34%N
  else if (e =? 92)%N then Some 92%N
  else if (e =? 47)%N then Some 47%N
  else if (e =? 98)%N then Some 8%N
  else if (e =? 102)%N then Some 12%N
  else if (e =? 110)%N then Some 10%N
  else if (e =? 114)%N then Some 13%N
  else if (e =? 116)%N then Some 9%N
  else None.

Definition cons_read (c : N) (r : option (str * str)) : option (str * str) :=
  match r with
  | Some (text, rest) => Some (c :: text, rest)
  | None => None
  end.

(** The text of a string up to its closing quote, and what follows the
    quote. *)
Fixpoint read_string_body (s : str) : option (str * str) :=
  match s with
  | [] => None
  | c :: s' =>
      if (c =? 34)%N then Some ([], s')
      else if (c =? 92)%N then
        match s' with
        | [] => None
        | e :: s'' =>
            if (e =? 117)%N then
              match s'' with
              | h3 :: h2 :: h1 :: h0 :: s3 =>
                  match hex4 h3 h2 h1 h0 with
                  | Some u => cons_read u (read_string_body s3)
                  | None => None
                  end
              | _ => None
              end
            else
              match simple_escape e with
              | Some u => cons_read u (read_string_body s'')
              | None => None
              end
        end
      else if (c <? 32)%N then None
      else cons_read c (read_string_body s')
  end.

Definition read_string (s : str) : option (str * str) :=
  match s with
  | c :: s' => if (c =? 34)%N then read_string_body s' else None
  | [] => None
  end.

(** ** The command line: [bin/cli.ts] *)

(** The options as commander hands them to the action: the texts of the
    command line, and the flag. *)
Record CliOpts := {
  cli_src : str;
  cli_out : str;
  cli_prefix : str;
  cli_size : str;
  cli_stroke : str;
  cli_fill : bool;
}.

(** The defaults declared with the options. *)
Definition cli_defaults : CliOpts := {|
  cli_src := lit "icons-src";
  cli_out := lit "icons";
  cli_prefix := [];
  cli_size := lit "24";
  cli_stroke := lit "1.5";
  cli_fill := false;
|}.

(** What the action takes from the process and the language:
    [process.cwd()], [path.resolve], [Number], and what [console.error]
    is given for a value a collaborator threw (its message when it is an
    Error, else the value). *)
Class Process `{Adapters} := {
  process_cwd : str;
  path_resolve : str -> str -> str;
  Number : str -> number;
  caught_text : exn -> str;
}.

Inductive cli_event :=
| Effect (ev : event)
| ConsoleError (args : list str)
| Exit (code : nat).

Section Cli.
Context `{Process} (disk : Disk).

Definition CliM (A : Type) : Type :=
  list cli_event -> result A * list cli_event.

Definition cli_ret {A} (a : A) : CliM A := fun tr => (Ok a, tr).

Definition cli_bind {A B} (m : CliM A) (k : A -> CliM B) : CliM B :=
  fun tr =>
    match m tr with
    | (Ok a, tr') => k a tr'
    | (Throw t, tr') => (Throw t, tr')
    end.

Definition cli_emit (e : cli_event) : CliM unit := fun tr => (Ok tt, tr ++ [e]).

(** [await m]: the effects of [m] follow those done so far. *)
Definition await {A} (m : M A) : CliM A :=
  fun tr => let (r, evs) := m [] in (r, tr ++ map Effect evs).

(** [try { body } catch (error) { handler }] *)
Definition try_catch {A} (body : CliM A) (handler : thrown -> CliM A) : CliM A :=
  fun tr =>
    match body tr with
    | (Ok a, tr') => (Ok a, tr')
    | (Throw t, tr') => handler t tr'
    end.

(** [error instanceof Error ? error.message : error] *)
Definition error_text (error : thrown) : str :=
  match error with
  | Error message => message
  | Raised e => caught_text e
  end.

(** The object the action passes to [generate]. *)
Definition generate_opts (opts : CliOpts) : Opts :=
  let cwd := process_cwd in
  {| srcDir := path_resolve cwd (cli_src opts);
     outDir := path_resolve cwd (cli_out opts);
     prefix := Some (cli_prefix opts);
     defaultSize := Number (cli_size opts);
     defaultStrokeWidth := Number (cli_stroke opts);
     filled := cli_fill opts |}.

Definition action (opts : CliOpts) : CliM unit :=
  try_catch
    (let cwd := process_cwd in
     let src := path_resolve cwd (cli_src opts) in
     let out := path_resolve cwd (cli_out opts) in
     cli_bind (cli_emit (Effect (ConsoleLog (lit "Generating icons..."))))
       (fun _ =>
     cli_bind (cli_emit (Effect (ConsoleLog (lit "   Source: " ++ src))))
       (fun _ =>
     cli_bind (cli_emit (Effect (ConsoleLog (lit "   Output: " ++ out
                                             ++ [nl]))))
       (fun _ =>
     cli_bind (await (generate disk (generate_opts opts)))
       (fun _ =>
     cli_emit (Effect (ConsoleLog ([nl] ++ lit "Generated icons from " ++ src
                                   ++ lit " " ++ [8594%N] ++ lit " "
                                   ++ out))))))))
    (fun error =>
       cli_bind (cli_emit (ConsoleError [[nl] ++ lit "Error:";
                                         error_text error]))
         (fun _ => cli_emit (Exit 1))).

End Cli.

(** The process of the concrete world: relative paths are resolved
    against the directory [/work], a number is its text. *)
Module CliWorld.
Import TestWorld.
#[local] Existing Instance TestWorld.adapters.

#[local] Instance process : Process := {|
  process_cwd := lit "/work";
  path_resolve := fun cwd p => cwd ++ lit "/" ++ p;
  Number := fun text => text;
  caught_text := fun e => e;
|}.

(** The working directory holds the three icons, under the default
    source directory. *)
Definition work_disk : Disk := disk_of (lit "/work/icons-src") icons.

(** The options of a command line that gives the prefix Icon. *)
Definition with_prefix : CliOpts := {|
  cli_src := lit "icons-src";
  cli_out := lit "icons";
  cli_prefix := lit "Icon";
  cli_size := lit "24";
  cli_stroke := lit "1.5";
  cli_fill := false;
|}.

(** The working directory holds no icon. *)
Definition bare_disk : Disk := disk_of (lit "/work/icons-src") [].

End CliWorld.

(** ** More source trees for the concrete world *)

Module MoreWorlds.
Import TestWorld.
#[local] Existing Instance TestWorld.adapters.

(** Two files, neither with the marker. *)
Definition invalid_only : list (str * str) :=
  [ (lit "invalid.svg", lit "not an svg"); (lit "empty.svg", []) ].

Definition invalid_disk : Disk := disk_of src invalid_only.

(** A good document before one svgo rejects. *)
Definition broken_second : list (str * str) :=
  [ (lit "home.svg", path_svg); (lit "broken.svg", lit "<svg><path") ].

Definition broken_second_disk : Disk := disk_of src broken_second.

End MoreWorlds.

(** ** The console of a run *)

(** The arguments of the calls of [console.warn], in order. *)
Definition warnings (tr : trace) : list str :=
  flat_map (fun ev => match ev with
                      | ConsoleWarn msg => [msg]
                      | _ => []
                      end) tr.

(** The arguments of the calls of [console.log], in order. *)
Definition logs (tr : trace) : list str :=
  flat_map (fun ev => match ev with
                      | ConsoleLog msg => [msg]
                      | _ => []
                      end) tr.

(** The directories of the calls of [fs.mkdir], in order. *)
Definition mkdirs (tr : trace) : list str :=
  flat_map (fun ev => match ev with
                      | Mkdir dir => [dir]
                      | _ => []
                      end) tr.

(** ** The files a run gets through *)

Section GoesThrough.
Context `{Adapters} (disk : Disk).

(** The loop body goes through on [rel]: its summary is a result, and the
    component, when there is one, can be written. *)
Definition goes_through (opts : Opts) (rel : str) : Prop :=
  exists r,
    component_of disk opts rel = Ok r
    /\ forall pretty, r = Some pretty ->
         fs_writeFile disk (out_path opts rel) pretty = None.

End GoesThrough.

(** * Properties *)

(** ** Splitting and joining *)

Section SplitJoin.
Variable c : N.

Lemma split_cons_eq s : split c (c :: s) = [] :: split c s.
Proof. simpl. now rewrite N.eqb_refl. Qed.

Lemma split_nonempty s : split c s <> [].
Proof.
  destruct s as [|x s]; simpl; [discriminate|].
  destruct (N.eqb x c); [discriminate|].
  destruct (split c s); discriminate.
Qed.

Lemma split_cons_ne x s :
  x <> c ->
  exists t ts, split c s = t :: ts /\ split c (x :: s) = (x :: t) :: ts.
Proof.
  intros Hx. simpl. apply N.eqb_neq in Hx. rewrite Hx.
  destruct (split c s) as [|t ts] eqn:E.
  - now apply split_nonempty in E.
  - now exists t, ts.
Qed.

Lemma join_cons_cons sep (x : N) (t : str) ts :
  join sep ((x :: t) :: ts) = x :: join sep (t :: ts).
Proof. destruct ts; reflexivity. Qed.

Lemma join_split s : join [c] (split c s) = s.
Proof.
  induction s as [|x s IH]; [reflexivity|].
  destruct (N.eq_dec x c) as [->|Hx].
  - rewrite split_cons_eq.
    destruct (split c s) as [|t ts] eqn:E; [now apply split_nonempty in E|].
    simpl in *. now rewrite IH.
  - destruct (split_cons_ne x s Hx) as (t & ts & E1 & E2).
    rewrite E2, join_cons_cons, <- E1. now rewrite IH.
Qed.

(** A base name without the separator is one token. *)
Lemma split_without s : ~ In c s -> split c s = [s].
Proof.
  induction s as [|x s IH]; intros Hn; [reflexivity|].
  destruct (split_cons_ne x s) as (t & ts & E1 & E2).
  - intros ->. apply Hn. now left.
  - rewrite E2. rewrite IH in E1 by (intros Hi; apply Hn; now right).
    now inversion E1.
Qed.

(** The text before the first separator is the first token, whatever
    follows: an empty text between two separators is a token too. *)
Lemma split_app s1 s2 :
  ~ In c s1 -> split c (s1 ++ c :: s2) = s1 :: split c s2.
Proof.
  induction s1 as [|x s1 IH]; intros Hn.
  - apply split_cons_eq.
  - destruct (split_cons_ne x (s1 ++ c :: s2)) as (t & ts & E1 & E2).
    + intros ->. apply Hn. now left.
    + simpl app. rewrite E2. rewrite IH in E1 by (intros Hi; apply Hn; now right).
      now inversion E1.
Qed.

(** One token more than there are separators: none is filtered out. *)
Lemma length_split s : length (split c s) = S (count_occ N.eq_dec s c).
Proof.
  induction s as [|x s IH]; [reflexivity|].
  destruct (N.eq_dec x c) as [->|Hx].
  - rewrite split_cons_eq. simpl length. rewrite IH.
    now rewrite count_occ_cons_eq.
  - destruct (split_cons_ne x s Hx) as (t & ts & E1 & E2).
    rewrite E2. rewrite count_occ_cons_neq by assumption.
    rewrite <- IH, E1. reflexivity.
Qed.

(** The tokens hold the code units of the text as they are. *)
Lemma split_Forall (P : N -> Prop) s :
  Forall P s -> Forall (Forall P) (split c s).
Proof.
  induction s as [|x s IH]; intros Hs.
  - repeat constructor.
  - inversion Hs as [|? ? Hx Hs']; subst. specialize (IH Hs').
    destruct (N.eq_dec x c) as [->|Hne].
    + rewrite split_cons_eq. now constructor.
    + destruct (split_cons_ne x s Hne) as (t & ts & E1 & E2).
      rewrite E2. rewrite E1 in IH. inversion IH; subst.
      constructor; [now constructor | assumption].
Qed.

End SplitJoin.

(** ** The loop over the enumerated files *)

Section Loop.
Context `{Adapters} (disk : Disk).

Ltac run_step :=
  unfold bind, call, perform, emit, throw, ret; simpl.

(** The loop body is its summary followed by the write. *)
Lemma process_file_eq opts rel es tr :
  process_file disk opts rel es tr =
  match component_of disk opts rel with
  | Throw t => (Throw t, tr)
  | Ok None => (Ok es, tr ++ [warning_of rel])
  | Ok (Some pretty) =>
      match fs_writeFile disk (out_path opts rel) pretty with
      | Some x => (Throw (Raised x), tr)
      | None => (Ok (es ++ [entry_of opts rel]),
                 tr ++ [WriteFile (out_path opts rel) pretty;
                        success_of opts rel])
      end
  end.
Proof.
  unfold process_file, component_of. run_step.
  destruct (fs_readFile disk _) as [e|svgRaw]; [reflexivity|].
  destruct (includes _ svgRaw); simpl; [|reflexivity].
  destruct (svgo_optimize svgRaw) as [e|opt]; [reflexivity|].
  destruct (svgr_transform opt) as [e|jsx]; [reflexivity|].
  unfold inner_of, sanitize, entry_of, base_of, prefix_text. simpl.
  destruct (prettier_format _) as [e|pretty]; [reflexivity|].
  unfold out_path, base_of.
  destruct (fs_writeFile disk _ pretty); [reflexivity|].
  unfold success_of, entry_of, base_of, prefix_text. simpl.
  now rewrite <- app_assoc.
Qed.

Lemma for_of_app opts pre post es tr :
  for_of disk opts (pre ++ post) es tr =
  match for_of disk opts pre es tr with
  | (Ok es1, tr1) => for_of disk opts post es1 tr1
  | (Throw t, tr1) => (Throw t, tr1)
  end.
Proof.
  revert es tr. induction pre as [|rel pre IH]; intros es tr; [reflexivity|].
  simpl. unfold bind.
  destruct (process_file disk opts rel es tr) as [[es1|t] tr1]; [|reflexivity].
  apply IH.
Qed.

Lemma component_Some_valid opts rel pretty :
  component_of disk opts rel = Ok (Some pretty) -> is_valid disk opts rel = true.
Proof.
  unfold component_of, is_valid.
  destruct (fs_readFile disk _) as [e|svgRaw]; [discriminate|].
  now destruct (includes _ svgRaw).
Qed.

Lemma component_None_valid opts rel :
  component_of disk opts rel = Ok None -> is_valid disk opts rel = false.
Proof.
  unfold component_of, is_valid.
  destruct (fs_readFile disk _) as [e|svgRaw]; [discriminate|].
  destruct (includes _ svgRaw); simpl; [|reflexivity].
  destruct (svgo_optimize svgRaw) as [e|opt]; [discriminate|].
  destruct (svgr_transform opt) as [e|jsx]; [discriminate|].
  now destruct (prettier_format _).
Qed.

(** A loop that completes has collected the entries of the valid files,
    in enumeration order, and has done the effects of each file. *)
Lemma for_of_Ok opts files : forall es tr es' tr',
  for_of disk opts files es tr = (Ok es', tr') ->
  es' = es ++ map (entry_of opts) (List.filter (is_valid disk opts) files)
  /\ tr' = tr ++ flat_map (events_of disk opts) files
  /\ Forall (fun rel => exists r, component_of disk opts rel = Ok r) files.
Proof.
  induction files as [|rel files IH]; intros es tr es' tr' Hrun.
  - simpl in Hrun. unfold ret in Hrun. inversion Hrun; subst.
    simpl. now rewrite !app_nil_r.
  - simpl in Hrun. unfold bind in Hrun. rewrite process_file_eq in Hrun.
    unfold events_of. simpl.
    destruct (component_of disk opts rel) as [[pretty|]|t] eqn:Ec;
      [| |discriminate].
    + rewrite (component_Some_valid _ _ _ Ec).
      destruct (fs_writeFile disk _ pretty); [discriminate|].
      apply IH in Hrun as (-> & -> & Hall).
      repeat split.
      * simpl. now rewrite <- app_assoc.
      * now rewrite <- app_assoc.
      * constructor; [eexists; exact Ec | exact Hall].
    + rewrite (component_None_valid _ _ Ec).
      apply IH in Hrun as (-> & -> & Hall).
      repeat split.
      * now rewrite <- app_assoc.
      * constructor; [eexists; exact Ec | exact Hall].
Qed.

End Loop.

(** ** A run of [generate] *)

Section Run.
Context `{Adapters} (disk : Disk).

(** A run that completes did, in this order: the directory, the loop, the
    barrel file, the metadata file. *)
Lemma generate_Ok opts tr tr' :
  generate disk opts tr = (Ok tt, tr') ->
  exists files indexCode,
    globby disk (lit "**/*.svg") (srcDir opts) = inr files
    /\ files <> []
    /\ prettier_format (indexTpl (manifest disk opts files)) = inr indexCode
    /\ Forall (fun rel => exists r, component_of disk opts rel = Ok r) files
    /\ tr' = tr ++ [Mkdir (outDir opts); found_of (length files)]
               ++ flat_map (events_of disk opts) files
               ++ [WriteFile (index_path opts) indexCode;
                   WriteFile (metadata_path opts)
                     (JSON_stringify (metadata (manifest disk opts files)));
                   generated_of (length (manifest disk opts files))].
Proof.
  unfold generate, bind, call, perform, emit, throw, ret.
  destruct (fs_mkdir disk _); [discriminate|].
  destruct (globby disk _ _) as [e|files]; [discriminate|].
  destruct (Nat.eqb (length files) 0) eqn:En; [discriminate|].
  destruct (for_of disk opts files [] _) as [[es|t] tr1] eqn:Eloop;
    [|discriminate].
  apply for_of_Ok in Eloop as (-> & -> & Hall).
  change ([] ++ ?l) with l.
  fold (manifest disk opts files).
  destruct (prettier_format _) as [e|indexCode] eqn:Ep; [discriminate|].
  fold (index_path opts). fold (metadata_path opts).
  destruct (fs_writeFile disk (index_path opts) _); [discriminate|].
  destruct (fs_writeFile disk (metadata_path opts) _); [discriminate|].
  intros Hrun. injection Hrun as <-.
  exists files, indexCode.
  split; [reflexivity|]. split.
  { intros ->. discriminate. }
  split; [exact Ep|]. split; [exact Hall|].
  unfold found_of, generated_of.
  rewrite <- !app_assoc. reflexivity.
Qed.

End Run.

(** ** Occurrences *)

Lemma strip_prefix_app p s : strip_prefix p (p ++ s) = Some s.
Proof.
  induction p as [|a p IH]; [reflexivity|].
  simpl. now rewrite N.eqb_refl.
Qed.

Lemma includes_app p a s : includes p s = true -> includes p (a ++ s) = true.
Proof.
  intros Hs. induction a as [|x a IH]; [exact Hs|].
  simpl. rewrite IH. now destruct (strip_prefix p (x :: a ++ s)).
Qed.

Lemma includes_self p s : includes p (p ++ s) = true.
Proof.
  destruct p as [|a p]; destruct s; simpl; try reflexivity;
    rewrite ?N.eqb_refl, ?strip_prefix_app; reflexivity.
Qed.

Lemma includes_middle p a s : includes p (a ++ p ++ s) = true.
Proof. apply includes_app, includes_self. Qed.

(** ** Errors *)

Section Errors.
Context `{Adapters} (disk : Disk).

(** C5. When the enumeration is empty, [generate] fails with the error
    for no input files, the message of that error contains the configured
    source directory, and the output directory was created before the
    failure: the creation is the one effect of the run. *)
Theorem generate_no_input_files opts tr :
  fs_mkdir disk (outDir opts) = None ->
  globby disk (lit "**/*.svg") (srcDir opts) = inr [] ->
  generate disk opts tr = (Throw (no_input_files opts), tr ++ [Mkdir (outDir opts)])
  /\ exists message,
       no_input_files opts = Error message
       /\ includes (srcDir opts) message = true.
Proof.
  intros Hmk Hglob. split.
  - unfold generate, bind, perform, call, emit, throw, ret, no_input_files.
    now rewrite Hmk, Hglob.
  - eexists. split; [reflexivity|].
    rewrite <- (app_nil_r (srcDir opts)) at 2. apply includes_middle.
Qed.

(** C6. A discovered file whose content lacks the vector-root marker is
    skipped: the loop body records a warning that names the relative path,
    returns the entries unchanged, and the loop goes on with the files
    after it. *)
Theorem invalid_file_is_skipped opts rel svgRaw :
  fs_readFile disk (path_join (srcDir opts) rel) = inr svgRaw ->
  includes (lit "<svg") svgRaw = false ->
  (forall es tr,
     process_file disk opts rel es tr = (Ok es, tr ++ [warning_of rel]))
  /\ (exists message,
        warning_of rel = ConsoleWarn message /\ includes rel message = true)
  /\ (forall pre post es tr,
        for_of disk opts (pre ++ rel :: post) es tr =
        match for_of disk opts pre es tr with
        | (Ok es1, tr1) => for_of disk opts post es1 (tr1 ++ [warning_of rel])
        | (Throw t, tr1) => (Throw t, tr1)
        end).
Proof.
  intros Hread Hmark.
  assert (Hbody : forall es tr,
             process_file disk opts rel es tr = (Ok es, tr ++ [warning_of rel])).
  { intros es tr. rewrite process_file_eq. unfold component_of.
    now rewrite Hread, Hmark. }
  split; [exact Hbody|]. split.
  - eexists. split; [reflexivity|].
    rewrite <- (app_nil_r rel) at 2.
    rewrite (app_assoc _ (lit "  Skipping invalid SVG: ")).
    apply includes_middle.
  - intros pre post es tr. rewrite for_of_app.
    destruct (for_of disk opts pre es tr) as [[es1|t] tr1]; [|reflexivity].
    simpl. unfold bind. now rewrite Hbody.
Qed.

End Errors.

Section ErrorsInTheTestWorld.
#[local] Existing Instance TestWorld.adapters.
Import TestWorld.

Lemma generate_no_input_files_witness :
  (fs_mkdir no_files (outDir defaultOpts) = None
   /\ globby no_files (lit "**/*.svg") (srcDir defaultOpts) = inr [])
  /\ generate no_files defaultOpts []
     = (Throw (Error (lit "No SVG files found in /test/src")),
        [Mkdir (lit "/test/out")]).
Proof.
  split; [split; reflexivity|].
  exact (proj1 (generate_no_input_files no_files defaultOpts []
                  eq_refl eq_refl)).
Defined.

Lemma invalid_file_is_skipped_witness :
  (fs_readFile icons_disk (path_join (srcDir defaultOpts) (lit "invalid.svg"))
   = inr (lit "not an svg")
   /\ includes (lit "<svg") (lit "not an svg") = false)
  /\ forall es tr,
       process_file icons_disk defaultOpts (lit "invalid.svg") es tr
       = (Ok es, tr ++ [warning_of (lit "invalid.svg")]).
Proof.
  split; [split; reflexivity|].
  exact (proj1 (invalid_file_is_skipped icons_disk defaultOpts
                  (lit "invalid.svg") (lit "not an svg") eq_refl eq_refl)).
Defined.

End ErrorsInTheTestWorld.

(** ** Names and tags *)

Lemma Forall2_map_self {A B} (R : A -> B -> Prop) (f : A -> B) l :
  (forall a, R a (f a)) -> Forall2 R l (map f l).
Proof. intros Hf. induction l; simpl; constructor; auto. Qed.

Section Naming.
Context `{Adapters} (disk : Disk).

(** C10. For every processed file, joining the tags of its entry with the
    hyphen gives back the base name: the entries a completed loop adds are
    those of the valid files, in order, each with this property. *)
Theorem tags_join_is_base opts files es tr es' tr' :
  for_of disk opts files es tr = (Ok es', tr') ->
  es' = es ++ manifest disk opts files
  /\ Forall2 (fun rel e => join [hyphen] (tags e) = base_of rel)
       (List.filter (is_valid disk opts) files) (manifest disk opts files).
Proof.
  intros Hrun. apply for_of_Ok in Hrun as (-> & _ & _).
  split; [reflexivity|].
  apply Forall2_map_self. intros rel. simpl. apply join_split.
Qed.

(** C7, as the code has it. For every processed file the tags are the base
    name split at each hyphen, in order and verbatim: one token more than
    there are hyphens, so that the empty text between two hyphens is a
    token, and every code unit of a token is one of the base name, so
    that the tokens are lower case when the base name is, and only then.
    The base name arrow-left-circle gives arrow, left, circle. *)
Theorem tags_are_verbatim_split opts files es tr es' tr' :
  for_of disk opts files es tr = (Ok es', tr') ->
  es' = es ++ manifest disk opts files
  /\ Forall2 (fun rel e =>
                tags e = split hyphen (base_of rel)
                /\ length (tags e) = S (count_occ N.eq_dec (base_of rel) hyphen)
                /\ (forallb is_lowercase (tags e) = is_lowercase (base_of rel))
                /\ (forall first rest, ~ In hyphen first ->
                      base_of rel = first ++ hyphen :: hyphen :: rest ->
                      exists more, tags e = first :: [] :: more))
       (List.filter (is_valid disk opts) files) (manifest disk opts files)
  /\ split hyphen (lit "arrow-left-circle")
     = [lit "arrow"; lit "left"; lit "circle"].
Proof.
  intros Hrun. apply for_of_Ok in Hrun as (-> & _ & _).
  split; [reflexivity|]. split; [|reflexivity].
  apply Forall2_map_self. intros rel. simpl.
  split; [reflexivity|]. split; [apply length_split|]. split.
  - generalize (base_of rel). intros s. induction s as [|x s IH]; [reflexivity|].
    destruct (N.eq_dec x hyphen) as [->|Hx].
    + rewrite split_cons_eq. simpl in *. exact IH.
    + destruct (split_cons_ne hyphen x s Hx) as (t & ts & E1 & E2).
      rewrite E2. rewrite E1 in IH. simpl in *. rewrite <- IH.
      now rewrite andb_assoc.
  - intros first rest Hfirst ->.
    rewrite split_app by assumption. rewrite split_cons_eq. eauto.
Qed.

(** C4. For every processed file with base name b, the file identifier of
    its entry is the pascal case of b, the component identifier is the
    pascal case of the prefix followed by b, in one conversion, and
    without a prefix the two identifiers are equal; the component is
    written under the file identifier. *)
Theorem identifiers_of_entries opts files es tr es' tr' :
  for_of disk opts files es tr = (Ok es', tr') ->
  es' = es ++ manifest disk opts files
  /\ Forall2 (fun rel e =>
                file e = pascalCase (base_of rel)
                /\ name e = pascalCase
                              (match prefix opts with
                               | Some p => p ++ base_of rel
                               | None => base_of rel
                               end)
                /\ (prefix opts = None -> name e = file e)
                /\ exists text,
                     In (WriteFile (path_join (outDir opts)
                                      (file e ++ lit ".tsx")) text) tr')
       (List.filter (is_valid disk opts) files) (manifest disk opts files).
Proof.
  intros Hrun. apply for_of_Ok in Hrun as (-> & -> & Hall).
  split; [reflexivity|].
  assert (Hw : forall rel, In rel files -> is_valid disk opts rel = true ->
            exists text, In (WriteFile (out_path opts rel) text)
                            (flat_map (events_of disk opts) files)).
  { intros rel Hin Hv. rewrite Forall_forall in Hall.
    destruct (Hall rel) as [r Hr]; [now apply list_elem_of_In|].
    destruct r as [pretty|].
    - exists pretty. apply in_flat_map. exists rel. split; [exact Hin|].
      unfold events_of. rewrite Hr. now left.
    - apply component_None_valid in Hr. congruence. }
  clear Hall. revert Hw. generalize (flat_map (events_of disk opts) files).
  intros evs Hw. unfold manifest.
  assert (Hsub : forall rel, In rel (List.filter (is_valid disk opts) files) ->
            In rel files /\ is_valid disk opts rel = true)
    by (intros rel Hr; apply List.filter_In in Hr; exact Hr).
  revert Hsub. generalize (List.filter (is_valid disk opts) files).
  intros valid Hsub. induction valid as [|rel valid IH]; simpl; constructor.
  - split; [reflexivity|]. split.
    { unfold entry_of, prefix_text. simpl. destruct (prefix opts); reflexivity. }
    split.
    { unfold entry_of, prefix_text. simpl. intros ->. reflexivity. }
    destruct (Hsub rel (or_introl eq_refl)) as [Hin Hv].
    destruct (Hw rel Hin Hv) as [text Ht]. exists text.
    apply in_or_app. now right.
  - apply IH. intros r Hr. apply Hsub. now right.
Qed.

End Naming.

Section NamingInTheTestWorld.
#[local] Existing Instance TestWorld.adapters.
Import TestWorld.

Lemma icons_loop :
  for_of icons_disk defaultOpts (map fst icons) [] []
  = (Ok (manifest icons_disk defaultOpts (map fst icons)),
     snd (for_of icons_disk defaultOpts (map fst icons) [] [])).
Proof. vm_compute. reflexivity. Defined.

Lemma tags_join_is_base_witness :
  for_of icons_disk defaultOpts (map fst icons) [] []
  = (Ok (manifest icons_disk defaultOpts (map fst icons)),
     snd (for_of icons_disk defaultOpts (map fst icons) [] []))
  /\ Forall2 (fun rel e => join [hyphen] (tags e) = base_of rel)
       (List.filter (is_valid icons_disk defaultOpts) (map fst icons))
       (manifest icons_disk defaultOpts (map fst icons)).
Proof.
  split; [exact icons_loop|].
  exact (proj2 (tags_join_is_base icons_disk defaultOpts (map fst icons)
                  [] [] _ _ icons_loop)).
Defined.

Lemma tags_are_verbatim_split_witness :
  for_of icons_disk defaultOpts (map fst icons) [] []
  = (Ok (manifest icons_disk defaultOpts (map fst icons)),
     snd (for_of icons_disk defaultOpts (map fst icons) [] []))
  /\ Forall2 (fun rel e => tags e = split hyphen (base_of rel))
       (List.filter (is_valid icons_disk defaultOpts) (map fst icons))
       (manifest icons_disk defaultOpts (map fst icons)).
Proof.
  split; [exact icons_loop|].
  pose proof (tags_are_verbatim_split icons_disk defaultOpts (map fst icons)
                [] [] _ _ icons_loop) as (_ & Htags & _).
  eapply Forall2_impl; [exact Htags|].
  intros rel e (Ht & _). exact Ht.
Defined.

Lemma identifiers_of_entries_witness :
  for_of icons_disk defaultOpts (map fst icons) [] []
  = (Ok (manifest icons_disk defaultOpts (map fst icons)),
     snd (for_of icons_disk defaultOpts (map fst icons) [] []))
  /\ Forall2 (fun rel e =>
                file e = pascalCase (base_of rel)
                /\ name e = pascalCase (lit "Icon" ++ base_of rel))
       (List.filter (is_valid icons_disk defaultOpts) (map fst icons))
       (manifest icons_disk defaultOpts (map fst icons)).
Proof.
  split; [exact icons_loop|].
  pose proof (identifiers_of_entries icons_disk defaultOpts (map fst icons)
                [] [] _ _ icons_loop) as (_ & Hids).
  eapply Forall2_impl; [exact Hids|].
  intros rel e (Hf & Hn & _). split; [exact Hf | exact Hn].
Defined.

(** C7, as the specification has it, fails: the tokens are not lower case
    for the file Arrow-Left.svg, whose tags are Arrow and Left. *)
Lemma tags_are_not_lowercased :
  ~ (forall (A : Adapters) (disk : Disk) opts files es tr,
       for_of disk opts files [] [] = (Ok es, tr) ->
       Forall (fun e => forallb is_lowercase (tags e) = true) es).
Proof.
  intros Hclaim.
  destruct (for_of capitals_disk defaultOpts (map fst capitals) [] [])
    as [[es|t] tr] eqn:E.
  - specialize (Hclaim adapters capitals_disk defaultOpts (map fst capitals)
                  es tr E).
    vm_compute in E. injection E as <- <-.
    inversion Hclaim as [|? ? Hlow _]; subst.
    vm_compute in Hlow. discriminate.
  - vm_compute in E. discriminate.
Qed.

(** The tags of the file Arrow-Left.svg. *)
Example tags_of_capitals :
  map tags (manifest capitals_disk defaultOpts (map fst capitals))
  = [ [lit "Arrow"; lit "Left"] ].
Proof. vm_compute. reflexivity. Qed.

(** The prefix and the base name go through one conversion: the outcome
    differs from the two converted apart. *)
Example prefix_merges_with_base :
  pascalCase (lit "Icon" ++ lit "arrow-left") = lit "IconarrowLeft"
  /\ pascalCase (lit "Icon") ++ pascalCase (lit "arrow-left")
     = lit "IconArrowLeft".
Proof. split; vm_compute; reflexivity. Qed.

End NamingInTheTestWorld.

(** ** The artifacts of a run *)

Lemma writes_app tr1 tr2 : writes (tr1 ++ tr2) = writes tr1 ++ writes tr2.
Proof. unfold writes. apply flat_map_app. Qed.

(** Writes to pairwise distinct fresh paths leave one file each. *)
Lemma size_after_writes (l : list (str * str)) : forall m : gmap str str,
  NoDup (map fst l) ->
  (forall k, In k (map fst l) -> m !! k = None) ->
  size (foldl (fun m w => <[fst w := snd w]> m) m l) = size m + length l.
Proof.
  induction l as [|[k v] l IH]; intros m Hnd Hfresh; simpl.
  - lia.
  - simpl in Hnd. apply NoDup_cons in Hnd as [Hk Hnd].
    rewrite IH.
    + rewrite map_size_insert_None by (apply Hfresh; now left). lia.
    + exact Hnd.
    + intros k' Hk'. rewrite lookup_insert_ne.
      * apply Hfresh. now right.
      * intros ->. apply Hk. now apply list_elem_of_In.
Qed.

(** No sequence of writes leaves more files than it has writes. *)
Lemma size_after_writes_le (l : list (str * str)) : forall m : gmap str str,
  size (foldl (fun m w => <[fst w := snd w]> m) m l) <= size m + length l.
Proof.
  induction l as [|[k v] l IH]; intros m; simpl; [lia|].
  specialize (IH (<[k:=v]> m)). rewrite map_size_insert in IH.
  destruct (m !! k); simpl in IH; lia.
Qed.

Section Artifacts.
Context `{Adapters} (disk : Disk).

(** The writes of a completed loop: one per valid file, in order. *)
Lemma writes_of_loop opts files :
  Forall (fun rel => exists r, component_of disk opts rel = Ok r) files ->
  writes (flat_map (events_of disk opts) files)
  = map (fun rel => (out_path opts rel, text_of disk opts rel))
      (List.filter (is_valid disk opts) files).
Proof.
  induction files as [|rel files IH]; intros Hall; [reflexivity|].
  apply Forall_cons in Hall as [[r Hr] Hall].
  cbn [flat_map List.filter]. rewrite writes_app, IH by exact Hall.
  assert (Ht : text_of disk opts rel
               = match r with Some pretty => pretty | None => [] end)
    by (unfold text_of; now rewrite Hr).
  assert (He : events_of disk opts rel
               = match r with
                 | Some pretty => [WriteFile (out_path opts rel) pretty;
                                   success_of opts rel]
                 | None => [warning_of rel]
                 end)
    by (unfold events_of; now rewrite Hr).
  rewrite He. destruct r as [pretty|].
  - rewrite (component_Some_valid _ _ _ _ Hr). cbn [map]. now rewrite Ht.
  - now rewrite (component_None_valid _ _ _ Hr).
Qed.

(** C1, as the code has it. A run that completes over an enumeration with
    N valid inputs makes exactly N + 2 writes: one component file for each
    valid input, in enumeration order, then the barrel file, then the
    metadata file. The count member of the metadata document is the number
    of manifest entries, which is N, the number of component files written.
    The run leaves at most N + 2 files, and N + 2 when the paths written
    are pairwise distinct; a path written twice holds the later text
    only. *)
Theorem generate_artifacts opts tr tr' :
  generate disk opts tr = (Ok tt, tr') ->
  exists files evs indexCode,
    globby disk (lit "**/*.svg") (srcDir opts) = inr files
    /\ files <> []
    /\ tr' = tr ++ evs
    /\ writes evs
       = map (fun rel => (out_path opts rel, text_of disk opts rel))
           (List.filter (is_valid disk opts) files)
         ++ [ (index_path opts, indexCode);
              (metadata_path opts,
               JSON_stringify (metadata (manifest disk opts files))) ]
    /\ length (writes evs)
       = length (List.filter (is_valid disk opts) files) + 2
    /\ json_member (lit "count") (metadata (manifest disk opts files))
       = Some (JNumber (length (manifest disk opts files)))
    /\ length (manifest disk opts files)
       = length (List.filter (is_valid disk opts) files)
    /\ size (files_written evs)
       <= length (List.filter (is_valid disk opts) files) + 2
    /\ (NoDup (map fst (writes evs)) ->
        size (files_written evs)
        = length (List.filter (is_valid disk opts) files) + 2).
Proof.
  intros Hrun.
  apply generate_Ok in Hrun as (files & indexCode & Hglob & Hne & _ & Hall & ->).
  eexists files, _, indexCode.
  split; [exact Hglob|]. split; [exact Hne|]. split; [reflexivity|].
  assert (Hw : writes
            ([Mkdir (outDir opts); found_of (length files)]
             ++ flat_map (events_of disk opts) files
             ++ [WriteFile (index_path opts) indexCode;
                 WriteFile (metadata_path opts)
                   (JSON_stringify (metadata (manifest disk opts files)));
                 generated_of (length (manifest disk opts files))])
          = map (fun rel => (out_path opts rel, text_of disk opts rel))
              (List.filter (is_valid disk opts) files)
            ++ [ (index_path opts, indexCode);
                 (metadata_path opts,
                  JSON_stringify (metadata (manifest disk opts files))) ]).
  { rewrite !writes_app, writes_of_loop by exact Hall. reflexivity. }
  split; [exact Hw|].
  assert (Hlen : length
            (map (fun rel => (out_path opts rel, text_of disk opts rel))
               (List.filter (is_valid disk opts) files)
             ++ [ (index_path opts, indexCode);
                  (metadata_path opts,
                   JSON_stringify (metadata (manifest disk opts files))) ])
          = length (List.filter (is_valid disk opts) files) + 2).
  { rewrite length_app, length_map. reflexivity. }
  split; [now rewrite Hw|].
  split; [reflexivity|].
  split; [unfold manifest; now rewrite length_map|].
  split.
  { unfold files_written.
    pose proof (size_after_writes_le
                  (writes
                     ([Mkdir (outDir opts); found_of (length files)]
                      ++ flat_map (events_of disk opts) files
                      ++ [WriteFile (index_path opts) indexCode;
                          WriteFile (metadata_path opts)
                            (JSON_stringify
                               (metadata (manifest disk opts files)));
                          generated_of (length (manifest disk opts files))]))
                  ∅) as Hle.
    rewrite map_size_empty in Hle. rewrite Hw in Hle at 2.
    rewrite Hlen in Hle. exact Hle. }
  intros Hnd. unfold files_written.
  rewrite size_after_writes.
  - rewrite map_size_empty. rewrite Hw, Hlen. reflexivity.
  - exact Hnd.
  - intros k _. apply lookup_empty.
Qed.

End Artifacts.

Section ArtifactsInTheTestWorld.
#[local] Existing Instance TestWorld.adapters.
Import TestWorld.

Lemma icons_run :
  generate icons_disk defaultOpts []
  = (Ok tt, snd (generate icons_disk defaultOpts [])).
Proof. vm_compute. reflexivity. Defined.

Lemma generate_artifacts_witness :
  generate icons_disk defaultOpts []
  = (Ok tt, snd (generate icons_disk defaultOpts []))
  /\ exists files evs indexCode,
       globby icons_disk (lit "**/*.svg") (srcDir defaultOpts) = inr files
       /\ files <> []
       /\ snd (generate icons_disk defaultOpts []) = [] ++ evs
       /\ writes evs
          = map (fun rel => (out_path defaultOpts rel,
                             text_of icons_disk defaultOpts rel))
              (List.filter (is_valid icons_disk defaultOpts) files)
            ++ [ (index_path defaultOpts, indexCode);
                 (metadata_path defaultOpts,
                  JSON_stringify
                    (metadata (manifest icons_disk defaultOpts files))) ]
       /\ length (writes evs)
          = length (List.filter (is_valid icons_disk defaultOpts) files) + 2.
Proof.
  split; [exact icons_run|].
  destruct (generate_artifacts icons_disk defaultOpts [] _ icons_run)
    as (files & evs & indexCode & H1 & H2 & H3 & H4 & H5 & _).
  exists files, evs, indexCode. repeat split; assumption.
Defined.

(** C1, as the specification has it, fails when two valid inputs share a
    base name: a/icon.svg and b/icon.svg are both written to Icon.tsx, and
    the run leaves three files, not four. *)
Lemma colliding_names_leave_fewer_files :
  ~ (forall (A : Adapters) (disk : Disk) opts files tr',
       globby disk (lit "**/*.svg") (srcDir opts) = inr files ->
       files <> [] ->
       generate disk opts [] = (Ok tt, tr') ->
       size (files_written tr')
       = length (List.filter (is_valid disk opts) files) + 2).
Proof.
  intros Hclaim.
  specialize (Hclaim adapters colliding_disk defaultOpts (map fst colliding)
                (snd (generate colliding_disk defaultOpts []))
                eq_refl ltac:(discriminate)).
  assert (Hrun : generate colliding_disk defaultOpts []
                 = (Ok tt, snd (generate colliding_disk defaultOpts [])))
    by (vm_compute; reflexivity).
  specialize (Hclaim Hrun). vm_compute in Hclaim. discriminate.
Qed.

(** The files of that run, and its writes. *)
Example files_of_colliding_run :
  map fst (writes (snd (generate colliding_disk defaultOpts [])))
  = [ lit "/test/out/Icon.tsx"; lit "/test/out/Icon.tsx";
      lit "/test/out/index.ts"; lit "/test/out/metadata.json" ]
  /\ size (files_written (snd (generate colliding_disk defaultOpts []))) = 3
  /\ json_member (lit "count")
       (metadata (manifest colliding_disk defaultOpts (map fst colliding)))
     = Some (JNumber 2).
Proof. repeat split; vm_compute; reflexivity. Qed.

End ArtifactsInTheTestWorld.

(** ** Determinism *)

Section Determinism.
Context `{Adapters}.

Lemma component_of_ext (d1 d2 : Disk) opts rel :
  fs_readFile d1 (path_join (srcDir opts) rel)
  = fs_readFile d2 (path_join (srcDir opts) rel) ->
  component_of d1 opts rel = component_of d2 opts rel.
Proof. intros Hread. unfold component_of. now rewrite Hread. Qed.

Lemma loop_ext (d1 d2 : Disk) opts files :
  (forall rel, In rel files ->
     fs_readFile d1 (path_join (srcDir opts) rel)
     = fs_readFile d2 (path_join (srcDir opts) rel)) ->
  flat_map (events_of d1 opts) files = flat_map (events_of d2 opts) files
  /\ manifest d1 opts files = manifest d2 opts files.
Proof.
  unfold manifest.
  induction files as [|rel files IH]; intros Hread; [now split|].
  destruct IH as [IHe IHm]; [intros r Hr; apply Hread; now right|].
  assert (Hrel := Hread rel (or_introl eq_refl)).
  split.
  - simpl. unfold events_of at 1 3.
    now rewrite (component_of_ext d1 d2 opts rel Hrel), IHe.
  - assert (Hv : is_valid d1 opts rel = is_valid d2 opts rel)
      by (unfold is_valid; now rewrite Hrel).
    simpl. rewrite Hv.
    destruct (is_valid d2 opts rel); simpl; now rewrite IHm.
Qed.

(** C9. Two runs with the same options and the same collaborators, over
    disks that give the same enumeration and the same content for every
    enumerated file, and that both complete, have the same effects in the
    same order: the same component files, barrel file and metadata
    document, code unit for code unit. *)
Theorem generate_deterministic (d1 d2 : Disk) opts tr1 tr2 tr1' tr2' :
  globby d1 (lit "**/*.svg") (srcDir opts)
  = globby d2 (lit "**/*.svg") (srcDir opts) ->
  (forall files rel,
     globby d1 (lit "**/*.svg") (srcDir opts) = inr files ->
     In rel files ->
     fs_readFile d1 (path_join (srcDir opts) rel)
     = fs_readFile d2 (path_join (srcDir opts) rel)) ->
  generate d1 opts tr1 = (Ok tt, tr1') ->
  generate d2 opts tr2 = (Ok tt, tr2') ->
  exists evs,
    tr1' = tr1 ++ evs /\ tr2' = tr2 ++ evs
    /\ writes tr1' = writes tr1 ++ writes evs
    /\ writes tr2' = writes tr2 ++ writes evs.
Proof.
  intros Hglob Hread Hrun1 Hrun2.
  apply generate_Ok in Hrun1 as (files & code1 & Hg1 & _ & Hp1 & _ & ->).
  apply generate_Ok in Hrun2 as (files2 & code2 & Hg2 & _ & Hp2 & _ & ->).
  rewrite Hglob, Hg2 in Hg1. injection Hg1 as ->.
  rewrite <- Hglob in Hg2.
  destruct (loop_ext d1 d2 opts files (fun rel => Hread files rel Hg2))
    as [He Hm].
  rewrite Hm in Hp1. rewrite Hp1 in Hp2. injection Hp2 as ->.
  rewrite He, Hm.
  eexists. split; [reflexivity|]. split; [reflexivity|].
  split; apply writes_app.
Qed.

End Determinism.

Section DeterminismInTheTestWorld.
#[local] Existing Instance TestWorld.adapters.
Import TestWorld.

Lemma icons_run_again :
  generate icons_disk_again defaultOpts []
  = (Ok tt, snd (generate icons_disk_again defaultOpts [])).
Proof. vm_compute. reflexivity. Defined.

Lemma icons_read_again files rel :
  globby icons_disk (lit "**/*.svg") (srcDir defaultOpts) = inr files ->
  In rel files ->
  fs_readFile icons_disk (path_join (srcDir defaultOpts) rel)
  = fs_readFile icons_disk_again (path_join (srcDir defaultOpts) rel).
Proof.
  intros Hg Hin. injection Hg as <-.
  destruct Hin as [<-|[<-|[<-|[]]]]; reflexivity.
Defined.

Lemma generate_deterministic_witness :
  (generate icons_disk defaultOpts []
   = (Ok tt, snd (generate icons_disk defaultOpts []))
   /\ generate icons_disk_again defaultOpts []
      = (Ok tt, snd (generate icons_disk_again defaultOpts [])))
  /\ exists evs,
       snd (generate icons_disk defaultOpts []) = [] ++ evs
       /\ snd (generate icons_disk_again defaultOpts []) = [] ++ evs.
Proof.
  split; [split; [exact icons_run | exact icons_run_again]|].
  destruct (generate_deterministic icons_disk icons_disk_again defaultOpts
              [] [] _ _ eq_refl icons_read_again icons_run icons_run_again)
    as (evs & H1 & H2 & _).
  exists evs. split; assumption.
Defined.

End DeterminismInTheTestWorld.

(** ** The root element of a component *)

Lemma mismatch_strip p s t : mismatch p s = true -> strip_prefix p (s ++ t) = None.
Proof.
  revert s. induction p as [|a p IH]; intros [|b s] Hm; try discriminate.
  simpl in *. destruct (N.eqb a b); [now apply IH | reflexivity].
Qed.

Lemma mismatch_app p s t : mismatch p s = true -> mismatch p (s ++ t) = true.
Proof.
  revert s. induction p as [|a p IH]; intros [|b s] Hm; try discriminate.
  simpl in *. destruct (N.eqb a b); [now apply IH | reflexivity].
Qed.

Lemma no_start_app p s t :
  no_start p s = true -> no_start p t = true -> no_start p (s ++ t) = true.
Proof.
  intros Hs Ht. induction s as [|c s IH]; [exact Ht|].
  cbn [no_start] in Hs. apply andb_true_iff in Hs as [Hm Hs].
  change ((c :: s) ++ t) with (c :: s ++ t). cbn [no_start].
  change (c :: s ++ t) with ((c :: s) ++ t) at 1.
  rewrite (mismatch_app p (c :: s) t Hm). now apply IH.
Qed.

Lemma no_start_no_angle p s : no_angle s = true -> no_start (60%N :: p) s = true.
Proof.
  unfold no_angle.
  induction s as [|c s IH]; intros Hs; [reflexivity|].
  cbn [forallb] in Hs. apply andb_true_iff in Hs as [Hc Hs].
  cbn [no_start mismatch]. rewrite IH by exact Hs. rewrite N.eqb_sym.
  now destruct (N.eqb c 60).
Qed.

(** The first occurrence of [p] is not in a text where it cannot start. *)
Lemma until_skip p s t :
  no_start p s = true ->
  until p (s ++ t)
  = match until p t with
    | Some (body, rest) => Some (s ++ body, rest)
    | None => None
    end.
Proof.
  intros Hs. induction s as [|c s IH].
  - simpl. now destruct (until p t) as [[body rest]|].
  - simpl in Hs. apply andb_true_iff in Hs as [Hm Hs].
    change ((c :: s) ++ t) with (c :: s ++ t).
    assert (Hh : strip_prefix p (c :: s ++ t) = None)
      by (apply (mismatch_strip p (c :: s) t Hm)).
    destruct p as [|a p]; [discriminate|].
    cbn [until]. rewrite Hh. rewrite IH by exact Hs.
    now destruct (until (a :: p) t) as [[body rest]|].
Qed.

Section Root.
Context `{Adapters}.

Ltac right_nest :=
  repeat (rewrite <- ?app_assoc; rewrite <- ?app_comm_cons).

(** The root element of a component text, attribute by attribute. *)
Lemma root_attrs_of_tsx opts compName body :
  no_angle compName = true ->
  no_angle (number_toString (defaultSize opts)) = true ->
  no_angle (number_toString (defaultStrokeWidth opts)) = true ->
  root_attrs (tsx_of opts compName body)
  = Some [ (lit "ref", lit "{ref}");
           (lit "width", lit "{size}");
           (lit "height", lit "{size}");
           (lit "aria-hidden",
            lit "{title ? undefined : " ++ q (lit "true") ++ lit "}");
           (lit "aria-labelledby", lit "{title ? titleId : undefined}");
           (lit "role",
            lit "{title ? " ++ q (lit "img") ++ lit " : "
            ++ q (lit "presentation") ++ lit "}");
           (lit "viewBox", q (lit "0 0 24 24"));
           (lit "fill",
            q (if filled opts then lit "currentColor" else lit "none"));
           (lit "stroke",
            q (if filled opts then lit "none" else lit "currentColor"));
           (lit "strokeWidth",
            if filled opts then lit "{undefined as any}"
            else lit "{strokeWidth}");
           (lit "strokeLinecap", q (lit "round"));
           (lit "strokeLinejoin", q (lit "round"));
           ([], lit "{...props}") ].
Proof.
  intros Hname Hsize Hwidth.
  match goal with |- _ = ?r => set (attrs := r) end.
  set (pre :=
     (lit "import * as React from " ++ q (lit "react") ++ lit ";" ++ [nl; nl]
      ++ lit "export interface ") ++ compName
     ++ (lit "Props extends React.SVGProps<SVGSVGElement> {" ++ [nl]
         ++ lit "  title?: string;" ++ [nl]
         ++ lit "  titleId?: string;" ++ [nl]
         ++ lit "  size?: number;" ++ [nl]
         ++ lit "  strokeWidth?: number;" ++ [nl]
         ++ lit "}" ++ [nl; nl]
         ++ lit "const ") ++ compName
     ++ lit " = React.memo(React.forwardRef<SVGSVGElement, " ++ compName
     ++ (lit "Props>(" ++ [nl]
         ++ lit "  ({ title, titleId, size = ")
     ++ number_toString (defaultSize opts)
     ++ lit ", strokeWidth = " ++ number_toString (defaultStrokeWidth opts)
     ++ (lit ", ...props }, ref) => {" ++ [nl] ++ lit "    return (" ++ [nl]
         ++ lit "      ")).
  assert (Hpre : no_start (lit "<svg") pre = true).
  { subst pre.
    repeat first
      [ apply no_start_app
      | apply (no_start_no_angle (lit "svg")); assumption
      | vm_compute; reflexivity ]. }
  assert (Hshape : exists rest,
             tsx_of opts compName body = pre ++ lit "<svg" ++ rest
             /\ jsx_attrs Between [] rest = attrs).
  { eexists. split.
    - subst pre. unfold tsx_of, buildComponent, lines, q.
      cbn [join componentName svgBody cd_defaultSize cd_defaultStrokeWidth
           fill stroke cd_filled].
      right_nest. reflexivity.
    - subst attrs. destruct (filled opts); vm_compute; reflexivity. }
  destruct Hshape as (rest & -> & Hattrs).
  unfold root_attrs. rewrite until_skip by exact Hpre.
  change (until (lit "<svg") (lit "<svg" ++ rest)) with (Some (@nil N, rest)).
  exact Hattrs.
Qed.

(** The destructuring of the props gives [strokeWidth] its default. *)
Lemma strokeWidth_default_in_tsx opts compName body :
  includes (lit "strokeWidth = " ++ number_toString (defaultStrokeWidth opts)
            ++ lit ", ...props }") (tsx_of opts compName body) = true.
Proof.
  assert (Hshape : exists pre rest,
            tsx_of opts compName body
            = pre ++ (lit "strokeWidth = "
                      ++ number_toString (defaultStrokeWidth opts)
                      ++ lit ", ...props }") ++ rest).
  { exists (lit "import * as React from " ++ q (lit "react") ++ lit ";"
            ++ [nl; nl] ++ lit "export interface " ++ compName
            ++ lit "Props extends React.SVGProps<SVGSVGElement> {" ++ [nl]
            ++ lit "  title?: string;" ++ [nl]
            ++ lit "  titleId?: string;" ++ [nl]
            ++ lit "  size?: number;" ++ [nl]
            ++ lit "  strokeWidth?: number;" ++ [nl]
            ++ lit "}" ++ [nl; nl]
            ++ lit "const " ++ compName
            ++ lit " = React.memo(React.forwardRef<SVGSVGElement, " ++ compName
            ++ lit "Props>(" ++ [nl]
            ++ lit "  ({ title, titleId, size = "
            ++ number_toString (defaultSize opts) ++ lit ", ").
    eexists.
    unfold tsx_of, buildComponent, lines, q.
    cbn [join componentName svgBody cd_defaultSize cd_defaultStrokeWidth
         fill stroke cd_filled].
    right_nest. reflexivity. }
  destruct Hshape as (pre & rest & ->). apply includes_middle.
Qed.

(** C2. In the text of every generated component the root element has, in
    filled mode, the fill currentColor, the stroke none and a stroke width
    that is the expression [undefined as any], not the prop; in unfilled
    mode the fill none, the stroke currentColor and the stroke width bound
    to the prop [strokeWidth]. The prop has the configured stroke width
    as its default. The identifier and the two numbers, as texts, hold no
    opening angle bracket. *)
Theorem root_colors_follow_mode opts compName body :
  no_angle compName = true ->
  no_angle (number_toString (defaultSize opts)) = true ->
  no_angle (number_toString (defaultStrokeWidth opts)) = true ->
  (filled opts = true ->
     root_attr (tsx_of opts compName body) (lit "fill")
     = Some (q (lit "currentColor"))
     /\ root_attr (tsx_of opts compName body) (lit "stroke")
        = Some (q (lit "none"))
     /\ root_attr (tsx_of opts compName body) (lit "strokeWidth")
        = Some (lit "{undefined as any}"))
  /\ (filled opts = false ->
        root_attr (tsx_of opts compName body) (lit "fill")
        = Some (q (lit "none"))
        /\ root_attr (tsx_of opts compName body) (lit "stroke")
           = Some (q (lit "currentColor"))
        /\ root_attr (tsx_of opts compName body) (lit "strokeWidth")
           = Some (lit "{strokeWidth}"))
  /\ includes (lit "strokeWidth = "
               ++ number_toString (defaultStrokeWidth opts)
               ++ lit ", ...props }") (tsx_of opts compName body) = true.
Proof.
  intros Hname Hsize Hwidth.
  pose proof (root_attrs_of_tsx opts compName body Hname Hsize Hwidth) as Hroot.
  unfold root_attr. rewrite Hroot.
  split; [|split; [|apply strokeWidth_default_in_tsx]];
    intros ->; repeat split; vm_compute; reflexivity.
Qed.

End Root.

Section RootInTheTestWorld.
#[local] Existing Instance TestWorld.adapters.
Import TestWorld.

Lemma root_colors_follow_mode_witness :
  (no_angle (lit "IconHome") = true
   /\ no_angle (number_toString (defaultSize defaultOpts)) = true
   /\ no_angle (number_toString (defaultStrokeWidth defaultOpts)) = true)
  /\ root_attr (tsx_of defaultOpts (lit "IconHome") (lit "<path />"))
       (lit "strokeWidth")
     = Some (lit "{strokeWidth}").
Proof.
  split; [repeat split; reflexivity|].
  exact (proj2 (proj2 (proj1 (proj2
           (root_colors_follow_mode defaultOpts (lit "IconHome")
              (lit "<path />") eq_refl eq_refl eq_refl)) eq_refl))).
Defined.

End RootInTheTestWorld.

(** ** Removing an attribute *)

Section RemoveAttr.
Variable name : str.

Lemma after_first_length c s rest :
  after_first c s = Some rest -> length rest < length s.
Proof.
  revert rest. induction s as [|x s IH]; intros rest Hs; [discriminate|].
  simpl in Hs. destruct (N.eqb x c).
  - injection Hs as <-. simpl. lia.
  - apply IH in Hs. simpl. lia.
Qed.

Lemma strip_prefix_length p s rest :
  strip_prefix p s = Some rest -> length rest + length p = length s.
Proof.
  revert s. induction p as [|a p IH]; intros s Hs.
  - injection Hs as <-. simpl. lia.
  - destruct s as [|b s]; [discriminate|]. simpl in Hs.
    destruct (N.eqb a b); [|discriminate]. apply IH in Hs. simpl. lia.
Qed.

Lemma attr_match_length s rest :
  attr_match name s = Some rest -> length rest < length s.
Proof.
  unfold attr_match. destruct (strip_prefix _ s) as [r|] eqn:E; [|discriminate].
  intros Hr. apply after_first_length in Hr.
  apply strip_prefix_length in E. lia.
Qed.

Lemma attr_match_nil : attr_match name [] = None.
Proof. unfold attr_match. now destruct name. Qed.

(** The fuel of [remove_attr] is enough. *)
Lemma remove_attr_fuel_enough fuel : forall fuel' s,
  length s <= fuel -> length s <= fuel' ->
  remove_attr_fuel fuel name s = remove_attr_fuel fuel' name s.
Proof.
  induction fuel as [|fuel IH]; intros fuel' s Hs Hs'.
  - destruct s; [|simpl in Hs; lia].
    destruct fuel'; simpl; [reflexivity | now rewrite attr_match_nil].
  - destruct fuel' as [|fuel'].
    + destruct s; [|simpl in Hs'; lia]. simpl. now rewrite attr_match_nil.
    + cbn [remove_attr_fuel].
      destruct (attr_match name s) as [rest|] eqn:E.
      * apply attr_match_length in E. apply IH; lia.
      * destruct s as [|c s]; [reflexivity|].
        simpl in Hs, Hs'. f_equal. apply IH; lia.
Qed.

(** The scan, one step at a time. *)
Lemma remove_attr_eq s :
  remove_attr name s
  = match attr_match name s with
    | Some rest => remove_attr name rest
    | None => match s with
              | [] => []
              | c :: s' => c :: remove_attr name s'
              end
    end.
Proof.
  unfold remove_attr. destruct s as [|c s].
  - simpl. now rewrite attr_match_nil.
  - cbn [length remove_attr_fuel].
    destruct (attr_match name (c :: s)) as [rest|] eqn:E; [|reflexivity].
    apply attr_match_length in E. simpl in E.
    apply remove_attr_fuel_enough; lia.
Qed.

Lemma remove_attr_match s rest :
  attr_match name s = Some rest -> remove_attr name s = remove_attr name rest.
Proof. intros E. now rewrite remove_attr_eq, E. Qed.

Lemma remove_attr_keep c s :
  attr_match name (c :: s) = None ->
  remove_attr name (c :: s) = c :: remove_attr name s.
Proof. intros E. now rewrite remove_attr_eq, E. Qed.

(** Induction along the scan. *)
Lemma scan_ind (P : str -> Prop) :
  P [] ->
  (forall s rest, attr_match name s = Some rest -> P rest -> P s) ->
  (forall c s, attr_match name (c :: s) = None -> P s -> P (c :: s)) ->
  forall s, P s.
Proof.
  intros Hnil Hmatch Hkeep s.
  remember (length s) as n eqn:Hn. revert s Hn.
  induction n as [n IH] using lt_wf_ind. intros s ->.
  destruct (attr_match name s) as [rest|] eqn:E.
  - apply (Hmatch s rest E).
    apply (IH (length rest)); [now apply attr_match_length | reflexivity].
  - destruct s as [|c s]; [exact Hnil|].
    apply (Hkeep c s E). apply (IH (length s)); [simpl; lia | reflexivity].
Qed.

Lemma remove_attr_length s : length (remove_attr name s) <= length s.
Proof.
  induction s as [|s rest E IH|c s E IH] using scan_ind.
  - reflexivity.
  - rewrite (remove_attr_match s rest E). apply attr_match_length in E. lia.
  - rewrite (remove_attr_keep c s E). simpl. lia.
Qed.

(** Without an occurrence nothing is removed, with one the text shrinks. *)
Lemma remove_attr_clean s : has_attr name s = false -> remove_attr name s = s.
Proof.
  induction s as [|c s IH]; intros Hs.
  - now rewrite remove_attr_eq, attr_match_nil.
  - cbn [has_attr] in Hs.
    destruct (attr_match name (c :: s)) eqn:E; [discriminate|].
    rewrite (remove_attr_keep c s E). now rewrite IH.
Qed.

Lemma remove_attr_shrinks s :
  has_attr name s = true -> length (remove_attr name s) < length s.
Proof.
  induction s as [|c s IH]; intros Hs.
  - simpl in Hs. now rewrite attr_match_nil in Hs.
  - cbn [has_attr] in Hs.
    destruct (attr_match name (c :: s)) as [rest|] eqn:E.
    + rewrite (remove_attr_match _ rest E). apply attr_match_length in E.
      pose proof (remove_attr_length rest). lia.
    + rewrite (remove_attr_keep c s E). simpl. apply IH in Hs. lia.
Qed.

End RemoveAttr.

(** ** Trimming *)

Lemma trimStart_suffix s : exists w, s = w ++ trimStart s.
Proof.
  induction s as [|c s [w IH]]; [now exists []|].
  simpl. destruct (is_space c).
  - exists (c :: w). simpl. now f_equal.
  - now exists [].
Qed.

Lemma trimEnd_prefix s : exists w, s = trimEnd s ++ w.
Proof.
  unfold trimEnd. destruct (trimStart_suffix (rev s)) as [w Hw].
  exists (rev w). rewrite <- rev_app_distr, <- Hw. now rewrite rev_involutive.
Qed.

Lemma trimStart_fixed s :
  match s with [] => True | c :: _ => is_space c = false end ->
  trimStart s = s.
Proof. destruct s as [|c s]; [reflexivity|]. simpl. now intros ->. Qed.

Lemma trimStart_head s :
  match trimStart s with [] => True | c :: _ => is_space c = false end.
Proof.
  induction s as [|c s IH]; [exact I|].
  simpl. destruct (is_space c) eqn:E; [exact IH | exact E].
Qed.

Lemma trimStart_idem s : trimStart (trimStart s) = trimStart s.
Proof. apply trimStart_fixed, trimStart_head. Qed.

Lemma trimEnd_idem s : trimEnd (trimEnd s) = trimEnd s.
Proof. unfold trimEnd. now rewrite rev_involutive, trimStart_idem. Qed.

Lemma trim_idem s : trim (trim s) = trim s.
Proof.
  unfold trim.
  assert (Hh : trimStart (trimEnd (trimStart s)) = trimEnd (trimStart s)).
  { apply trimStart_fixed.
    pose proof (trimStart_head s) as Hs.
    destruct (trimEnd_prefix (trimStart s)) as [w Hw].
    destruct (trimEnd (trimStart s)) as [|c t]; [exact I|].
    rewrite Hw in Hs. exact Hs. }
  rewrite Hh. apply trimEnd_idem.
Qed.

Lemma trim_infix s : exists before after, s = before ++ trim s ++ after.
Proof.
  unfold trim. destruct (trimStart_suffix s) as [w Hw].
  destruct (trimEnd_prefix (trimStart s)) as [w' Hw'].
  exists w, w'. now rewrite <- Hw', <- Hw.
Qed.

Lemma trim_length s : length (trim s) <= length s.
Proof.
  destruct (trim_infix s) as (b & a & Hs).
  rewrite Hs at 2. rewrite !length_app. lia.
Qed.

(** ** Occurrences of an attribute in a part of a text *)

Section HasAttr.
Variable name : str.

Lemma strip_prefix_extend p s rest t :
  strip_prefix p s = Some rest -> strip_prefix p (s ++ t) = Some (rest ++ t).
Proof.
  revert s. induction p as [|a p IH]; intros s Hs.
  - now injection Hs as <-.
  - destruct s as [|b s]; [discriminate|]. simpl in *.
    destruct (N.eqb a b); [now apply IH | discriminate].
Qed.

Lemma after_first_extend c s rest t :
  after_first c s = Some rest -> after_first c (s ++ t) = Some (rest ++ t).
Proof.
  induction s as [|x s IH]; intros Hs; [discriminate|].
  simpl in *. destruct (N.eqb x c); [now injection Hs as <- | now apply IH].
Qed.

Lemma attr_match_extend s rest t :
  attr_match name s = Some rest -> attr_match name (s ++ t) = Some (rest ++ t).
Proof.
  unfold attr_match. destruct (strip_prefix _ s) as [r|] eqn:E; [|discriminate].
  intros Hr. rewrite (strip_prefix_extend _ _ _ t E).
  now apply after_first_extend.
Qed.

Lemma has_attr_prefix s t : has_attr name s = true -> has_attr name (s ++ t) = true.
Proof.
  induction s as [|c s IH]; intros Hs.
  - simpl in Hs. now rewrite attr_match_nil in Hs.
  - cbn [has_attr] in Hs. change ((c :: s) ++ t) with (c :: s ++ t).
    cbn [has_attr].
    change (c :: s ++ t) with ((c :: s) ++ t).
    destruct (attr_match name (c :: s)) as [rest|] eqn:E.
    + now rewrite (attr_match_extend _ _ t E).
    + rewrite IH by exact Hs.
      destruct (attr_match name ((c :: s) ++ t)); reflexivity.
Qed.

Lemma has_attr_suffix w s : has_attr name s = true -> has_attr name (w ++ s) = true.
Proof.
  intros Hs. induction w as [|c w IH]; [exact Hs|].
  simpl. rewrite IH. now destruct (attr_match name _).
Qed.

Lemma has_attr_tail c s : has_attr name (c :: s) = false -> has_attr name s = false.
Proof.
  intros Hs. destruct (has_attr name s) eqn:E; [|reflexivity].
  pose proof (has_attr_suffix [c] s E) as Hc. simpl app in Hc. congruence.
Qed.

Lemma has_attr_trim s : has_attr name s = false -> has_attr name (trim s) = false.
Proof.
  intros Hs. destruct (has_attr name (trim s)) eqn:E; [|reflexivity].
  destruct (trim_infix s) as (b & a & Hinfix).
  rewrite Hinfix in Hs.
  now rewrite (has_attr_suffix b _ (has_attr_prefix _ a E)) in Hs.
Qed.

End HasAttr.

(** ** Removal and the attributes that stand after white space *)

Lemma strip_prefix_spec p s rest : strip_prefix p s = Some rest -> s = p ++ rest.
Proof.
  revert s. induction p as [|a p IH]; intros s Hs.
  - now injection Hs as <-.
  - destruct s as [|b s]; [discriminate|]. simpl in Hs.
    destruct (N.eqb a b) eqn:E; [|discriminate].
    apply N.eqb_eq in E as <-. simpl. f_equal. now apply IH.
Qed.

Lemma after_first_spec c s rest :
  after_first c s = Some rest -> exists v, s = v ++ c :: rest.
Proof.
  revert rest. induction s as [|x s IH]; intros rest Hs; [discriminate|].
  simpl in Hs. destruct (N.eqb x c) eqn:E.
  - injection Hs as <-. apply N.eqb_eq in E as ->. now exists [].
  - destruct (IH rest Hs) as [v ->]. now exists (x :: v).
Qed.

Lemma after_first_app c v s : after_first c (v ++ c :: s) <> None.
Proof.
  induction v as [|x v IH]; simpl.
  - now rewrite N.eqb_refl.
  - now destruct (N.eqb x c).
Qed.

Lemma guarded_weaken n ok s : guarded n ok s = true -> guarded n true s = true.
Proof.
  destruct s as [|c s]; [reflexivity|]. cbn [guarded].
  intros Hg. apply andb_true_iff in Hg as [_ Hg].
  now rewrite orb_true_r.
Qed.

Lemma guarded_suffix n w : forall ok s,
  guarded n ok (w ++ s) = true -> guarded n true s = true.
Proof.
  induction w as [|c w IH]; intros ok s Hg.
  - now apply guarded_weaken in Hg.
  - change ((c :: w) ++ s) with (c :: w ++ s) in Hg. cbn [guarded] in Hg.
    apply andb_true_iff in Hg as [_ Hg]. now apply IH in Hg.
Qed.

Section Guarded.
Variable a : str.

Lemma attr_match_suffix s rest :
  attr_match a s = Some rest -> exists w, s = w ++ rest.
Proof.
  unfold attr_match. destruct (strip_prefix _ s) as [r|] eqn:E; [|discriminate].
  intros Hr. apply strip_prefix_spec in E.
  destruct (after_first_spec _ _ _ Hr) as [v ->].
  exists ((a ++ lit "=" ++ [dq]) ++ v ++ [dq]).
  rewrite E. now rewrite <- !app_assoc.
Qed.

Lemma attr_match_opens s rest : attr_match a s = Some rest -> opens a s = true.
Proof.
  unfold attr_match, opens. now destruct (strip_prefix _ s).
Qed.

Lemma not_opens_no_match s : opens a s = false -> attr_match a s = None.
Proof.
  unfold attr_match, opens. now destruct (strip_prefix _ s).
Qed.

(** A text without a double quote has no attribute. *)
Lemma no_quote_no_attr s : after_first dq s = None -> has_attr a s = false.
Proof.
  induction s as [|c s IH]; intros Hq.
  - simpl. now rewrite attr_match_nil.
  - cbn [has_attr].
    destruct (attr_match a (c :: s)) as [rest|] eqn:E.
    + exfalso. unfold attr_match in E.
      destruct (strip_prefix _ (c :: s)) as [r|] eqn:Ep; [|discriminate].
      apply strip_prefix_spec in Ep. rewrite Ep in Hq.
      rewrite (app_assoc a), <- app_assoc in Hq.
      now apply after_first_app in Hq.
    + apply IH. simpl in Hq. now destruct (N.eqb c dq).
Qed.

Lemma guarded_false_head s : guarded a false s = true -> attr_match a s = None.
Proof.
  destruct s as [|c s]; [intros _; apply attr_match_nil|].
  cbn [guarded]. intros Hg. apply andb_true_iff in Hg as [Hh _].
  rewrite orb_false_r in Hh. apply negb_true_iff in Hh.
  now apply not_opens_no_match.
Qed.

(** What is left of an expression after some of its fixed part has been
    read cannot start in the text that the scan leaves, when it could not
    in the text scanned. *)
Lemma residual_match : forall s f ok,
  solid f = true ->
  guarded a ok s = true ->
  attr_match a s = None ->
  match strip_prefix f s with Some r => after_first dq r | None => None end
  = None ->
  match strip_prefix f (remove_attr a s) with
  | Some r => after_first dq r
  | None => None
  end = None.
Proof.
  induction s as [|d s IH]; intros f ok Hf Hg Ha Hm.
  - now rewrite remove_attr_eq, attr_match_nil.
  - destruct f as [|c0 f].
    + cbn [strip_prefix] in *.
      now rewrite (remove_attr_clean a _ (no_quote_no_attr _ Hm)).
    + rewrite (remove_attr_keep a d s Ha). cbn [strip_prefix] in *.
      destruct (N.eqb c0 d) eqn:E; [|reflexivity].
      apply N.eqb_eq in E as <-.
      cbn [solid forallb] in Hf. apply andb_true_iff in Hf as [Hc Hf].
      apply negb_true_iff in Hc.
      cbn [guarded] in Hg. apply andb_true_iff in Hg as [_ Hg].
      rewrite Hc in Hg.
      apply (IH f false Hf Hg (guarded_false_head s Hg) Hm).
Qed.

Lemma residual_prefix : forall s f ok,
  solid f = true ->
  guarded a ok s = true ->
  attr_match a s = None ->
  strip_prefix f s = None ->
  strip_prefix f (remove_attr a s) = None.
Proof.
  induction s as [|d s IH]; intros f ok Hf Hg Ha Hm.
  - now rewrite remove_attr_eq, attr_match_nil.
  - destruct f as [|c0 f]; [cbn [strip_prefix] in Hm; discriminate|].
    rewrite (remove_attr_keep a d s Ha). cbn [strip_prefix] in *.
    destruct (N.eqb c0 d) eqn:E; [|reflexivity].
    apply N.eqb_eq in E as <-.
    cbn [solid forallb] in Hf. apply andb_true_iff in Hf as [Hc Hf].
    apply negb_true_iff in Hc.
    cbn [guarded] in Hg. apply andb_true_iff in Hg as [_ Hg].
    rewrite Hc in Hg.
    apply (IH f false Hf Hg (guarded_false_head s Hg) Hm).
Qed.

Variable b : str.
Hypothesis b_solid : solid b = true.

Lemma pattern_solid : solid (b ++ lit "=" ++ [dq]) = true.
Proof.
  unfold solid in *. rewrite forallb_app, b_solid. reflexivity.
Qed.

(** An attribute [b] that the text scanned does not start where the scan
    tries and fails does not start there in the text the scan leaves. *)
Lemma kept_head_stays_clean s ok :
  guarded a ok s = true ->
  attr_match a s = None ->
  attr_match b s = None ->
  attr_match b (remove_attr a s) = None.
Proof.
  intros Hg Ha Hb. unfold attr_match in *.
  apply (residual_match s _ ok pattern_solid Hg Ha Hb).
Qed.

(** The scan for [a] leaves no [b] where there was none. *)
Lemma remove_attr_keeps_clean s : forall ok,
  guarded a ok s = true ->
  has_attr b s = false ->
  has_attr b (remove_attr a s) = false.
Proof.
  induction s as [|s rest E IH|c s E IH] using (scan_ind a); intros ok Hg Hb.
  - now rewrite remove_attr_eq, attr_match_nil.
  - rewrite (remove_attr_match a s rest E).
    destruct (attr_match_suffix s rest E) as [w ->].
    apply (IH true).
    + now apply guarded_suffix in Hg.
    + destruct (has_attr b rest) eqn:Er; [|reflexivity].
      now rewrite (has_attr_suffix b w rest Er) in Hb.
  - pose proof Hb as Hhead. cbn [has_attr] in Hhead.
    destruct (attr_match b (c :: s)) eqn:Eb; [discriminate|].
    pose proof (kept_head_stays_clean (c :: s) ok Hg E Eb) as Hk.
    rewrite (remove_attr_keep a c s E) in *.
    cbn [has_attr]. rewrite Hk.
    cbn [guarded] in Hg. apply andb_true_iff in Hg as [_ Hg].
    apply (IH _ Hg Hhead).
Qed.

(** The scan for [a] leaves every [b] after white space. *)
Lemma remove_attr_keeps_guarded s : forall ok,
  guarded a ok s = true ->
  guarded b ok s = true ->
  guarded b ok (remove_attr a s) = true.
Proof.
  induction s as [|s rest E IH|c s E IH] using (scan_ind a); intros ok Ha Hb.
  - now rewrite remove_attr_eq, attr_match_nil.
  - rewrite (remove_attr_match a s rest E).
    assert (Hok : ok = true).
    { destruct s as [|c s]; [rewrite attr_match_nil in E; discriminate|].
      apply attr_match_opens in E.
      cbn [guarded] in Ha. apply andb_true_iff in Ha as [Hh _].
      rewrite E in Hh. exact Hh. }
    subst ok. destruct (attr_match_suffix s rest E) as [w ->].
    apply IH; [now apply guarded_suffix in Ha | now apply guarded_suffix in Hb].
  - rewrite (remove_attr_keep a c s E).
    pose proof Ha as Ha'. pose proof Hb as Hb'.
    cbn [guarded] in Ha', Hb'.
    apply andb_true_iff in Ha' as [_ Ha'].
    apply andb_true_iff in Hb' as [Hh Hb'].
    cbn [guarded]. rewrite (IH _ Ha' Hb'), andb_true_r.
    destruct ok; [apply orb_true_r|].
    rewrite orb_false_r in *. apply negb_true_iff in Hh.
    apply negb_true_iff. unfold opens in *.
    destruct (strip_prefix _ (c :: s)) eqn:Ep; [discriminate|].
    pose proof (residual_prefix (c :: s) _ false pattern_solid Ha E Ep) as Hr.
    rewrite (remove_attr_keep a c s E) in Hr. now rewrite Hr.
Qed.

End Guarded.

(** The scan for an attribute leaves none of it, when each stands after
    white space. *)
Lemma remove_attr_leaves_none a s ok :
  solid a = true ->
  guarded a ok s = true ->
  has_attr a (remove_attr a s) = false.
Proof.
  intros Hsolid. revert ok.
  induction s as [|s rest E IH|c s E IH] using (scan_ind a); intros ok Hg.
  - rewrite remove_attr_eq, attr_match_nil. simpl. now rewrite attr_match_nil.
  - rewrite (remove_attr_match a s rest E).
    destruct (attr_match_suffix a s rest E) as [w ->].
    apply (IH true). now apply guarded_suffix in Hg.
  - pose proof (kept_head_stays_clean a a Hsolid (c :: s) ok Hg E E) as Hk.
    rewrite (remove_attr_keep a c s E) in *.
    cbn [has_attr]. rewrite Hk.
    cbn [guarded] in Hg. apply andb_true_iff in Hg as [_ Hg].
    apply (IH _ Hg).
Qed.

(** ** Sanitization *)

Lemma sanitize_clean_fixed s :
  has_attr (lit "fill") s = false -> has_attr (lit "stroke") s = false ->
  sanitize s = trim s.
Proof.
  intros Hf Hs. unfold sanitize, strip_colors.
  now rewrite (remove_attr_clean _ s Hf), (remove_attr_clean _ s Hs).
Qed.

Lemma sanitize_fixed_clean s :
  sanitize s = s ->
  has_attr (lit "fill") s = false /\ has_attr (lit "stroke") s = false.
Proof.
  intros Hfix. unfold sanitize, strip_colors in Hfix.
  pose proof (trim_length (remove_attr (lit "stroke")
                             (remove_attr (lit "fill") s))) as Ht.
  pose proof (remove_attr_length (lit "stroke") (remove_attr (lit "fill") s))
    as Hs.
  rewrite Hfix in Ht.
  destruct (has_attr (lit "fill") s) eqn:Ef.
  - apply remove_attr_shrinks in Ef. lia.
  - split; [reflexivity|].
    rewrite (remove_attr_clean _ s Ef) in Ht, Hs.
    destruct (has_attr (lit "stroke") s) eqn:Es; [|reflexivity].
    apply remove_attr_shrinks in Es. lia.
Qed.

(** C3, as the code has it. Sanitization removes in one pass from left to
    right the fill attributes, in a second pass the stroke attributes, and
    trims. It is idempotent at a raw body exactly when the sanitized body
    holds no fill or stroke attribute. That is so for every raw body in
    which each of the two attribute names, followed by the equals sign and
    the double quote, stands at the start or directly after white space. *)
Theorem sanitize_idempotent_iff_clean :
  (forall raw,
     sanitize (sanitize raw) = sanitize raw
     <-> has_attr (lit "fill") (sanitize raw) = false
         /\ has_attr (lit "stroke") (sanitize raw) = false)
  /\ (forall raw,
        guarded (lit "fill") true raw = true ->
        guarded (lit "stroke") true raw = true ->
        has_attr (lit "fill") (sanitize raw) = false
        /\ has_attr (lit "stroke") (sanitize raw) = false
        /\ sanitize (sanitize raw) = sanitize raw).
Proof.
  assert (Hiff : forall raw,
            sanitize (sanitize raw) = sanitize raw
            <-> has_attr (lit "fill") (sanitize raw) = false
                /\ has_attr (lit "stroke") (sanitize raw) = false).
  { intros raw. split.
    - apply sanitize_fixed_clean.
    - intros [Hf Hs]. rewrite (sanitize_clean_fixed _ Hf Hs).
      unfold sanitize. apply trim_idem. }
  split; [exact Hiff|].
  intros raw Hgf Hgs.
  assert (Hclean : has_attr (lit "fill") (sanitize raw) = false
                   /\ has_attr (lit "stroke") (sanitize raw) = false).
  { unfold sanitize, strip_colors. split; apply has_attr_trim.
    - apply (remove_attr_keeps_clean (lit "stroke") (lit "fill") eq_refl _ true).
      + now apply remove_attr_keeps_guarded.
      + now apply (remove_attr_leaves_none (lit "fill") raw true).
    - apply (remove_attr_leaves_none (lit "stroke") _ true eq_refl).
      now apply remove_attr_keeps_guarded. }
  destruct Hclean as [Hf Hs]. repeat split; [exact Hf | exact Hs |].
  now apply Hiff.
Qed.

Lemma sanitize_idempotent_iff_clean_witness :
  (guarded (lit "fill") true
     (lit "<path fill=" ++ q (lit "#000") ++ lit " stroke=" ++ q (lit "#fff")
      ++ lit " d=" ++ q (lit "M10 10") ++ lit "/>") = true
   /\ guarded (lit "stroke") true
        (lit "<path fill=" ++ q (lit "#000") ++ lit " stroke="
         ++ q (lit "#fff") ++ lit " d=" ++ q (lit "M10 10") ++ lit "/>") = true)
  /\ has_attr (lit "fill")
       (sanitize (lit "<path fill=" ++ q (lit "#000") ++ lit " stroke="
                  ++ q (lit "#fff") ++ lit " d=" ++ q (lit "M10 10")
                  ++ lit "/>")) = false.
Proof.
  split; [split; vm_compute; reflexivity|].
  refine (proj1 (proj2 sanitize_idempotent_iff_clean _ _ _));
    vm_compute; reflexivity.
Defined.

(** C3, as the specification has it, fails: a removal can bring the two
    parts of an attribute together. From the raw body fifill=QQll=QxQ, Q
    being the double quote, the pass removes fill=QQ and leaves fill=QxQ,
    which a second sanitization removes. *)
Lemma sanitize_can_leave_an_attribute :
  ~ (forall raw,
       sanitize (sanitize raw) = sanitize raw
       /\ has_attr (lit "fill") (sanitize raw) = false
       /\ has_attr (lit "stroke") (sanitize raw) = false).
Proof.
  intros Hclaim.
  destruct (Hclaim (lit "fifill=" ++ q [] ++ lit "ll=" ++ q (lit "x")))
    as (_ & Hfill & _).
  vm_compute in Hfill. discriminate.
Qed.

(** That raw body, and one in which the removal of a stroke attribute
    leaves a fill attribute. *)
Example sanitize_splices :
  sanitize (lit "fifill=" ++ q [] ++ lit "ll=" ++ q (lit "x"))
  = lit "fill=" ++ q (lit "x")
  /\ sanitize (sanitize (lit "fifill=" ++ q [] ++ lit "ll=" ++ q (lit "x")))
     = []
  /\ sanitize (lit "<path fistroke=" ++ q [] ++ lit "ll=" ++ q (lit "x")
               ++ lit "/>")
     = lit "<path fill=" ++ q (lit "x") ++ lit "/>".
Proof. repeat split; vm_compute; reflexivity. Qed.

(** The body of the test suite is sanitized as the suite expects. *)
Example sanitize_test_body :
  sanitize (lit "<path fill=" ++ q (lit "#000") ++ lit " stroke="
            ++ q (lit "#fff") ++ lit " d=" ++ q (lit "M10 10") ++ lit "/>")
  = lit "<path   d=" ++ q (lit "M10 10") ++ lit "/>".
Proof. vm_compute. reflexivity. Qed.

(** * Further properties of the generator *)

(** ** Every outcome of the loop and of a run *)

Section Outcomes.
Context `{Adapters} (disk : Disk).

Lemma for_of_completes opts files : forall es tr,
  Forall (goes_through disk opts) files ->
  for_of disk opts files es tr
  = (Ok (es ++ manifest disk opts files),
     tr ++ flat_map (events_of disk opts) files).
Proof.
  unfold manifest.
  induction files as [|rel files IH]; intros es tr Hall.
  - simpl. unfold ret. now rewrite !app_nil_r.
  - apply Forall_cons in Hall as [(r & Hr & Hw) Hall].
    cbn [for_of]. unfold bind. rewrite process_file_eq, Hr.
    cbn [flat_map List.filter]. unfold events_of at 1. rewrite Hr.
    destruct r as [pretty|].
    + rewrite (Hw pretty eq_refl), (component_Some_valid _ _ _ _ Hr).
      rewrite IH by exact Hall. cbn [map]. now rewrite <- !app_assoc.
    + rewrite (component_None_valid _ _ _ Hr).
      rewrite IH by exact Hall. now rewrite <- !app_assoc.
Qed.

(** The loop stops at the first file on which its body throws: the files
    before it are done, with their effects, and nothing of the files
    after it. *)
Lemma for_of_any opts files : forall es tr r tr',
  for_of disk opts files es tr = (r, tr') ->
  exists done rest,
    files = done ++ rest
    /\ tr' = tr ++ flat_map (events_of disk opts) done
    /\ Forall (goes_through disk opts) done
    /\ match r with
       | Ok es' => rest = [] /\ es' = es ++ manifest disk opts done
       | Throw t =>
           exists rel rest', rest = rel :: rest' /\ ~ goes_through disk opts rel
       end.
Proof.
  induction files as [|rel files IH]; intros es tr r tr' Hrun.
  - simpl in Hrun. unfold ret in Hrun. injection Hrun as <- <-.
    exists [], []. simpl. rewrite !app_nil_r. repeat split; constructor.
  - cbn [for_of] in Hrun. unfold bind in Hrun.
    rewrite process_file_eq in Hrun.
    destruct (component_of disk opts rel) as [[pretty|]|t] eqn:Ec.
    + destruct (fs_writeFile disk (out_path opts rel) pretty) as [x|] eqn:Ew.
      * injection Hrun as <- <-. exists [], (rel :: files).
        simpl. rewrite app_nil_r. repeat split; [constructor|].
        exists rel, files. split; [reflexivity|].
        intros (r & Hr & Hw). rewrite Ec in Hr. injection Hr as <-.
        rewrite (Hw pretty eq_refl) in Ew. discriminate.
      * apply IH in Hrun as (done & rest & -> & -> & Hall & Hr).
        exists (rel :: done), rest. cbn [flat_map].
        unfold events_of at 2. rewrite Ec.
        split; [reflexivity|]. split; [now rewrite <- !app_assoc|].
        split.
        { constructor; [|exact Hall]. exists (Some pretty).
          split; [exact Ec|]. intros p Hp. injection Hp as <-. exact Ew. }
        destruct r as [es'|t]; [|exact Hr].
        destruct Hr as [-> ->]. split; [reflexivity|].
        unfold manifest. cbn [List.filter].
        rewrite (component_Some_valid _ _ _ _ Ec). cbn [map].
        now rewrite <- app_assoc.
    + apply IH in Hrun as (done & rest & -> & -> & Hall & Hr).
      exists (rel :: done), rest. cbn [flat_map].
      unfold events_of at 2. rewrite Ec.
      split; [reflexivity|]. split; [now rewrite <- !app_assoc|].
      split.
      { constructor; [|exact Hall]. exists None.
        split; [exact Ec|]. intros p Hp. discriminate. }
      destruct r as [es'|t]; [|exact Hr].
      destruct Hr as [-> ->]. split; [reflexivity|].
      unfold manifest. cbn [List.filter].
      now rewrite (component_None_valid _ _ _ Ec).
    + injection Hrun as <- <-. exists [], (rel :: files).
      simpl. rewrite app_nil_r. repeat split; [constructor|].
      exists rel, files. split; [reflexivity|].
      intros (r & Hr & _). rewrite Ec in Hr. discriminate.
Qed.

End Outcomes.

Section RunOutcomes.
Context `{Adapters} (disk : Disk).

(** Every outcome of a run: the step at which it stopped, and the effects
    it has done by then. The steps are, in order: the directory, the
    enumeration, the loop, the formatting of the barrel, the write of the
    barrel, the write of the metadata document. *)
Lemma generate_any opts tr r tr' :
  generate disk opts tr = (r, tr') ->
  ((exists t, r = Throw t)
   /\ fs_mkdir disk (outDir opts) <> None
   /\ tr' = tr)
  \/ ((exists t, r = Throw t)
      /\ fs_mkdir disk (outDir opts) = None
      /\ (forall files,
            globby disk (lit "**/*.svg") (srcDir opts) = inr files ->
            files = [])
      /\ tr' = tr ++ [Mkdir (outDir opts)])
  \/ exists files done rest tail,
       fs_mkdir disk (outDir opts) = None
       /\ globby disk (lit "**/*.svg") (srcDir opts) = inr files
       /\ files <> []
       /\ files = done ++ rest
       /\ Forall (goes_through disk opts) done
       /\ tr' = tr ++ [Mkdir (outDir opts); found_of (length files)]
                  ++ flat_map (events_of disk opts) done ++ tail
       /\ ((tail = []
            /\ (exists t, r = Throw t)
            /\ exists rel rest',
                 rest = rel :: rest' /\ ~ goes_through disk opts rel)
           \/ (rest = [] /\ tail = []
               /\ (exists t, r = Throw t)
               /\ forall code,
                    prettier_format (indexTpl (manifest disk opts files))
                    = inr code ->
                    fs_writeFile disk (index_path opts) code <> None)
           \/ (rest = []
               /\ exists code,
                    prettier_format (indexTpl (manifest disk opts files))
                    = inr code
                    /\ fs_writeFile disk (index_path opts) code = None
                    /\ ((tail = [WriteFile (index_path opts) code]
                         /\ (exists t, r = Throw t)
                         /\ fs_writeFile disk (metadata_path opts)
                              (JSON_stringify
                                 (metadata (manifest disk opts files)))
                            <> None)
                        \/ (tail
                            = [WriteFile (index_path opts) code;
                               WriteFile (metadata_path opts)
                                 (JSON_stringify
                                    (metadata (manifest disk opts files)));
                               generated_of
                                 (length (manifest disk opts files))]
                            /\ r = Ok tt
                            /\ fs_writeFile disk (metadata_path opts)
                                 (JSON_stringify
                                    (metadata (manifest disk opts files)))
                               = None)))).
Proof.
  unfold generate, bind, call, perform, emit, throw, ret.
  destruct (fs_mkdir disk _) as [x|] eqn:Emk.
  { intros Hrun. injection Hrun as <- <-. left.
    split; [eauto|]. split; [discriminate | reflexivity]. }
  destruct (globby disk _ _) as [e|files] eqn:Eg.
  { intros Hrun. injection Hrun as <- <-. right. left.
    split; [eauto|]. split; [reflexivity|]. split; [|reflexivity].
    intros files Hf. discriminate. }
  destruct (Nat.eqb (length files) 0) eqn:En.
  { intros Hrun. injection Hrun as <- <-. right. left.
    split; [eauto|]. split; [reflexivity|]. split; [|reflexivity].
    intros files' Hf. injection Hf as <-.
    apply Nat.eqb_eq in En. now destruct files. }
  assert (Hne : files <> []) by (intros ->; discriminate).
  destruct (for_of disk opts files [] _) as [[es|t] tr1] eqn:Eloop.
  - apply for_of_any in Eloop as (done & rest & Hfiles & -> & Hall & -> & ->).
    rewrite app_nil_r in Hfiles. subst done.
    change ([] ++ ?l) with l. fold (manifest disk opts files).
    fold (index_path opts). fold (metadata_path opts).
    destruct (prettier_format _) as [e|code] eqn:Ep.
    { intros Hrun. injection Hrun as <- <-. right. right.
      exists files, files, [], []. rewrite !app_nil_r.
      split; [reflexivity|]. split; [reflexivity|]. split; [exact Hne|].
      split; [reflexivity|]. split; [exact Hall|].
      split; [unfold found_of; rewrite <- !app_assoc; reflexivity|].
      right. left. split; [reflexivity|]. split; [reflexivity|].
      split; [eauto|]. intros code Hc. rewrite Ep in Hc. discriminate. }
    destruct (fs_writeFile disk (index_path opts) code) as [x|] eqn:Ei.
    { intros Hrun. injection Hrun as <- <-. right. right.
      exists files, files, [], []. rewrite !app_nil_r.
      split; [reflexivity|]. split; [reflexivity|]. split; [exact Hne|].
      split; [reflexivity|]. split; [exact Hall|].
      split; [unfold found_of; rewrite <- !app_assoc; reflexivity|].
      right. left. split; [reflexivity|]. split; [reflexivity|].
      split; [eauto|]. intros code' Hc. rewrite Ep in Hc.
      injection Hc as <-. rewrite Ei. discriminate. }
    destruct (fs_writeFile disk (metadata_path opts) _) as [x|] eqn:Em.
    { intros Hrun. injection Hrun as <- <-. right. right.
      exists files, files, [], [WriteFile (index_path opts) code].
      rewrite !app_nil_r.
      split; [reflexivity|]. split; [reflexivity|]. split; [exact Hne|].
      split; [reflexivity|]. split; [exact Hall|].
      split; [unfold found_of; rewrite <- !app_assoc; reflexivity|].
      right. right. split; [reflexivity|].
      exists code. split; [exact Ep|]. split; [exact Ei|]. left.
      split; [reflexivity|]. split; [eauto|]. rewrite Em. discriminate. }
    intros Hrun. injection Hrun as <- <-. right. right.
    exists files, files, [],
      [WriteFile (index_path opts) code;
       WriteFile (metadata_path opts)
         (JSON_stringify (metadata (manifest disk opts files)));
       generated_of (length (manifest disk opts files))].
    split; [reflexivity|]. split; [reflexivity|]. split; [exact Hne|].
    split; [now rewrite app_nil_r|].
    split; [exact Hall|].
    split.
    { unfold found_of, generated_of. rewrite <- !app_assoc. reflexivity. }
    right. right. split; [reflexivity|].
    exists code. split; [exact Ep|]. split; [exact Ei|]. right.
    split; [reflexivity|]. split; [reflexivity | exact Em].
  - apply for_of_any in Eloop as (done & rest & Hfiles & -> & Hall & Hrest).
    intros Hrun. injection Hrun as <- <-. right. right.
    exists files, done, rest, []. rewrite !app_nil_r.
    split; [reflexivity|]. split; [reflexivity|]. split; [exact Hne|].
    split; [exact Hfiles|]. split; [exact Hall|].
    split; [unfold found_of; rewrite <- !app_assoc; reflexivity|].
    left. split; [reflexivity|]. split; [eauto | exact Hrest].
Qed.

(** A run gets through when every step can be done. *)
Lemma generate_runs_through opts files indexCode tr :
  fs_mkdir disk (outDir opts) = None ->
  globby disk (lit "**/*.svg") (srcDir opts) = inr files ->
  files <> [] ->
  Forall (goes_through disk opts) files ->
  prettier_format (indexTpl (manifest disk opts files)) = inr indexCode ->
  fs_writeFile disk (index_path opts) indexCode = None ->
  fs_writeFile disk (metadata_path opts)
    (JSON_stringify (metadata (manifest disk opts files))) = None ->
  generate disk opts tr
  = (Ok tt,
     tr ++ [Mkdir (outDir opts); found_of (length files)]
        ++ flat_map (events_of disk opts) files
        ++ [WriteFile (index_path opts) indexCode;
            WriteFile (metadata_path opts)
              (JSON_stringify (metadata (manifest disk opts files)));
            generated_of (length (manifest disk opts files))]).
Proof.
  intros Hmk Hglob Hne Hall Hp Hwi Hwm.
  unfold generate, bind, call, perform, emit, throw, ret.
  rewrite Hmk, Hglob.
  destruct files as [|rel files]; [contradiction|].
  cbn [length Nat.eqb].
  rewrite (for_of_completes disk opts (rel :: files) _ _ Hall).
  change ([] ++ ?l) with l.
  fold (index_path opts). fold (metadata_path opts).
  rewrite Hp, Hwi, Hwm.
  unfold found_of, generated_of. cbn [length].
  now rewrite <- !app_assoc.
Qed.

End RunOutcomes.

(** ** What a run does and does not do *)

Lemma warnings_app tr1 tr2 : warnings (tr1 ++ tr2) = warnings tr1 ++ warnings tr2.
Proof. unfold warnings. apply flat_map_app. Qed.

Lemma logs_app tr1 tr2 : logs (tr1 ++ tr2) = logs tr1 ++ logs tr2.
Proof. unfold logs. apply flat_map_app. Qed.

Lemma mkdirs_app tr1 tr2 : mkdirs (tr1 ++ tr2) = mkdirs tr1 ++ mkdirs tr2.
Proof. unfold mkdirs. apply flat_map_app. Qed.

Section RunFacts.
Context `{Adapters} (disk : Disk).

Lemma goes_through_result opts files :
  Forall (goes_through disk opts) files ->
  Forall (fun rel => exists r, component_of disk opts rel = Ok r) files.
Proof.
  intros Hall. eapply Forall_impl; [exact Hall|].
  intros rel (r & Hr & _). now exists r.
Qed.

(** The effects of the loop body on one file: a write into the output
    directory and a line, or a warning; no directory is made. *)
Lemma events_of_cases opts rel :
  (exists pretty,
     events_of disk opts rel
     = [WriteFile (out_path opts rel) pretty; success_of opts rel]
     /\ is_valid disk opts rel = true)
  \/ (events_of disk opts rel = [warning_of rel]
      /\ is_valid disk opts rel = false)
  \/ events_of disk opts rel = [].
Proof.
  unfold events_of.
  destruct (component_of disk opts rel) as [[pretty|]|t] eqn:Ec.
  - left. exists pretty. split; [reflexivity|].
    exact (component_Some_valid _ _ _ _ Ec).
  - right. left. split; [reflexivity|].
    exact (component_None_valid _ _ _ Ec).
  - now right; right.
Qed.

Lemma loop_mkdirs opts files :
  mkdirs (flat_map (events_of disk opts) files) = [].
Proof.
  induction files as [|rel files IH]; [reflexivity|].
  cbn [flat_map]. rewrite mkdirs_app, IH.
  now destruct (events_of_cases opts rel) as [(pretty & -> & _)|[[-> _]| ->]].
Qed.

(** A write of the loop is the component of a valid file. *)
Lemma loop_writes opts files p text :
  In (p, text) (writes (flat_map (events_of disk opts) files)) ->
  exists rel,
    In rel files
    /\ is_valid disk opts rel = true
    /\ p = out_path opts rel
    /\ component_of disk opts rel = Ok (Some text).
Proof.
  induction files as [|rel files IH]; [intros []|].
  cbn [flat_map]. rewrite writes_app. intros Hin.
  apply in_app_or in Hin as [Hin|Hin].
  - exists rel. split; [now left|].
    unfold events_of in Hin.
    destruct (component_of disk opts rel) as [[pretty|]|t] eqn:Ec;
      try now destruct Hin.
    destruct Hin as [Hin|[]]. injection Hin as <- <-.
    split; [exact (component_Some_valid _ _ _ _ Ec)|]. now split.
  - destruct (IH Hin) as (rel' & Hrel & Hrest).
    exists rel'. split; [now right | exact Hrest].
Qed.

(** X1. A run completes exactly when every step can be done: the
    directory can be made, the enumeration is not empty, the loop body
    goes through on every enumerated file, the barrel can be formatted,
    and the barrel and the metadata document can be written. *)
Theorem generate_completes_exactly_when opts tr :
  (exists tr', generate disk opts tr = (Ok tt, tr'))
  <-> (fs_mkdir disk (outDir opts) = None
       /\ exists files indexCode,
            globby disk (lit "**/*.svg") (srcDir opts) = inr files
            /\ files <> []
            /\ Forall (goes_through disk opts) files
            /\ prettier_format (indexTpl (manifest disk opts files))
               = inr indexCode
            /\ fs_writeFile disk (index_path opts) indexCode = None
            /\ fs_writeFile disk (metadata_path opts)
                 (JSON_stringify (metadata (manifest disk opts files)))
               = None).
Proof.
  split.
  - intros [tr' Hrun]. revert Hrun.
    unfold generate, bind, call, perform, emit, throw, ret.
    destruct (fs_mkdir disk _) as [x|]; [discriminate|].
    destruct (globby disk _ _) as [e|files]; [discriminate|].
    destruct (Nat.eqb (length files) 0) eqn:En; [discriminate|].
    destruct (for_of disk opts files [] _) as [[es|t] tr1] eqn:Eloop;
      [|discriminate].
    apply for_of_any in Eloop as (done & rest & Hfiles & -> & Hall & -> & ->).
    rewrite app_nil_r in Hfiles. subst done.
    change ([] ++ ?l) with l. fold (manifest disk opts files).
    fold (index_path opts). fold (metadata_path opts).
    destruct (prettier_format _) as [e|code] eqn:Ep; [discriminate|].
    destruct (fs_writeFile disk (index_path opts) code) eqn:Ei;
      [discriminate|].
    destruct (fs_writeFile disk (metadata_path opts) _) eqn:Em;
      [discriminate|].
    intros _. split; [reflexivity|]. exists files, code.
    repeat split; try assumption.
    intros ->. discriminate.
  - intros (Hmk & files & code & Hg & Hne & Hall & Hp & Hi & Hm).
    eexists. exact (generate_runs_through disk opts files code tr
                      Hmk Hg Hne Hall Hp Hi Hm).
Qed.

(** X2. A run that fails undoes nothing: its trace is what it did before
    the step that failed. When the directory cannot be made, or the
    enumeration fails or is empty, nothing is written. Otherwise the loop
    got through the longest initial part of the enumeration on which its
    body goes through, and the writes are the components of the valid
    files of that part, in enumeration order: those alone when the loop
    stopped at a file, or when the barrel cannot be formatted or written;
    followed by the barrel when only the metadata document cannot be
    written. No failed run writes the metadata document. *)
Theorem failed_run_keeps_its_writes opts tr t tr' :
  generate disk opts tr = (Throw t, tr') ->
  exists evs,
    tr' = tr ++ evs
    /\ ((writes evs = []
         /\ (fs_mkdir disk (outDir opts) <> None
             \/ forall files,
                  globby disk (lit "**/*.svg") (srcDir opts) = inr files ->
                  files = []))
        \/ exists files done rest tail,
             fs_mkdir disk (outDir opts) = None
             /\ globby disk (lit "**/*.svg") (srcDir opts) = inr files
             /\ files <> []
             /\ files = done ++ rest
             /\ Forall (goes_through disk opts) done
             /\ evs = [Mkdir (outDir opts); found_of (length files)]
                      ++ flat_map (events_of disk opts) done ++ tail
             /\ writes evs
                = map (fun rel => (out_path opts rel, text_of disk opts rel))
                    (List.filter (is_valid disk opts) done)
                  ++ writes tail
             /\ ((tail = []
                  /\ exists rel rest',
                       rest = rel :: rest' /\ ~ goes_through disk opts rel)
                 \/ (tail = [] /\ rest = []
                     /\ forall code,
                          prettier_format
                            (indexTpl (manifest disk opts files)) = inr code ->
                          fs_writeFile disk (index_path opts) code <> None)
                 \/ (rest = []
                     /\ exists code,
                          prettier_format
                            (indexTpl (manifest disk opts files)) = inr code
                          /\ fs_writeFile disk (index_path opts) code = None
                          /\ fs_writeFile disk (metadata_path opts)
                               (JSON_stringify
                                  (metadata (manifest disk opts files)))
                             <> None
                          /\ tail = [WriteFile (index_path opts) code]))).
Proof.
  intros Hrun.
  apply generate_any in Hrun
    as [(_ & Hmk & ->)
       |[(_ & Hmk & Hg & ->)
        |(files & done & rest & tail & Hmk & Hg & Hne & Hfiles & Hall & ->
          & Htail)]].
  - exists []. split; [now rewrite app_nil_r|].
    left. split; [reflexivity | now left].
  - eexists. split; [reflexivity|].
    left. split; [reflexivity | now right].
  - eexists. split; [reflexivity|]. right.
    exists files, done, rest, tail.
    split; [exact Hmk|]. split; [exact Hg|]. split; [exact Hne|].
    split; [exact Hfiles|]. split; [exact Hall|]. split; [reflexivity|].
    split.
    { rewrite !writes_app.
      now rewrite (writes_of_loop disk opts done (goes_through_result _ _ Hall)). }
    destruct Htail
      as [(-> & _ & Hrest)
         |[(-> & -> & _ & Hcode)
          |(-> & code & Hp & Hi & [(-> & _ & Hm)|(_ & Hok & _)])]].
    + left. split; [reflexivity | exact Hrest].
    + right. left. split; [reflexivity|]. split; [reflexivity | exact Hcode].
    + right. right. split; [reflexivity|]. exists code.
      split; [exact Hp|]. split; [exact Hi|]. split; [exact Hm | reflexivity].
    + discriminate.
Qed.

(** X3. Whatever its outcome, a run writes no other files than its own:
    every path written is the barrel path, the metadata path, or the
    output directory joined with the file identifier and .tsx of an
    enumerated file that holds the marker. The run calls [fs.mkdir] at
    most once, and on the output directory. *)
Theorem run_writes_only_its_own_files opts tr r tr' :
  generate disk opts tr = (r, tr') ->
  exists evs,
    tr' = tr ++ evs
    /\ (mkdirs evs = [] \/ mkdirs evs = [outDir opts])
    /\ forall p text,
         In (p, text) (writes evs) ->
         p = path_join (outDir opts) (lit "index.ts")
         \/ p = path_join (outDir opts) (lit "metadata.json")
         \/ exists files rel,
              globby disk (lit "**/*.svg") (srcDir opts) = inr files
              /\ In rel files
              /\ is_valid disk opts rel = true
              /\ p = path_join (outDir opts)
                       (pascalCase (path_basename rel (lit ".svg"))
                        ++ lit ".tsx")
              /\ component_of disk opts rel = Ok (Some text).
Proof.
  intros Hrun.
  apply generate_any in Hrun
    as [(_ & _ & ->)
       |[(_ & _ & _ & ->)
        |(files & done & rest & tail & _ & Hg & _ & Hfiles & Hall & ->
          & Htail)]].
  - exists []. rewrite app_nil_r.
    split; [reflexivity|]. split; [now left|]. intros p text [].
  - eexists. split; [reflexivity|]. split; [now right|]. intros p text [].
  - eexists. split; [reflexivity|].
    assert (Htl : tail = []
                  \/ (exists code, tail = [WriteFile (index_path opts) code])
                  \/ exists code text n,
                       tail = [WriteFile (index_path opts) code;
                               WriteFile (metadata_path opts) text;
                               generated_of n]).
    { destruct Htail
        as [(-> & _)
           |[(_ & -> & _)
            |(_ & code & _ & _ & [(-> & _)|(-> & _)])]]; eauto 6. }
    split.
    + rewrite !mkdirs_app, (loop_mkdirs opts done). right.
      destruct Htl as [->|[[code ->]|(code & text & n & ->)]]; reflexivity.
    + intros p text Hin. rewrite !writes_app in Hin.
      apply in_app_or in Hin as [[]|Hin].
      apply in_app_or in Hin as [Hin|Hin].
      * right. right. exists files.
        destruct (loop_writes opts done p text Hin) as (rel & Hrel & Hv & -> & Hc).
        exists rel. split; [exact Hg|]. split.
        { rewrite Hfiles. apply in_or_app. now left. }
        split; [exact Hv|]. split; [reflexivity | exact Hc].
      * destruct Htl as [->|[[code ->]|(code & text' & n & ->)]].
        -- destruct Hin.
        -- destruct Hin as [Hin|[]]. injection Hin as <- _. now left.
        -- destruct Hin as [Hin|[Hin|[]]]; injection Hin as <- _;
             [now left | right; now left].
Qed.

(** X4. The console accounts for every enumerated file of a completed
    run: the first line gives the number of files found, each skipped
    file has its warning and each converted file its line, in enumeration
    order, the last line gives the number of exports, and warnings and
    exports add up to the number of files found. *)
Theorem console_accounts_for_every_file opts tr tr' :
  generate disk opts tr = (Ok tt, tr') ->
  exists files evs,
    globby disk (lit "**/*.svg") (srcDir opts) = inr files
    /\ tr' = tr ++ evs
    /\ map ConsoleWarn (warnings evs)
       = map warning_of
           (List.filter (fun rel => negb (is_valid disk opts rel)) files)
    /\ map ConsoleLog (logs evs)
       = [found_of (length files)]
         ++ map (success_of opts) (List.filter (is_valid disk opts) files)
         ++ [generated_of (length (manifest disk opts files))]
    /\ length (warnings evs) + length (manifest disk opts files)
       = length files.
Proof.
  intros Hrun.
  apply generate_Ok in Hrun as (files & code & Hg & _ & _ & Hall & ->).
  exists files. eexists. split; [exact Hg|]. split; [reflexivity|].
  assert (Hloop :
    map ConsoleWarn (warnings (flat_map (events_of disk opts) files))
    = map warning_of
        (List.filter (fun rel => negb (is_valid disk opts rel)) files)
    /\ map ConsoleLog (logs (flat_map (events_of disk opts) files))
       = map (success_of opts) (List.filter (is_valid disk opts) files)).
  { clear code Hg. induction files as [|rel files IH]; [split; reflexivity|].
    apply Forall_cons in Hall as [[r Hr] Hall].
    destruct (IH Hall) as [IHw IHl].
    cbn [flat_map List.filter]. rewrite warnings_app, logs_app, !map_app.
    rewrite IHw, IHl.
    destruct (events_of_cases opts rel) as [(pretty & E & V)|[[E V]|E]];
      rewrite E.
    - rewrite V. split; reflexivity.
    - rewrite V. split; reflexivity.
    - unfold events_of in E. rewrite Hr in E. now destruct r. }
  destruct Hloop as [Hw Hl].
  rewrite !warnings_app, !logs_app. simpl. rewrite !app_nil_r.
  split; [exact Hw|]. split.
  { rewrite !map_app, Hl. reflexivity. }
  apply (f_equal (@length event)) in Hw. rewrite !length_map in Hw.
  rewrite Hw. unfold manifest. rewrite length_map.
  clear. induction files as [|rel files IH]; [reflexivity|].
  simpl. destruct (is_valid disk opts rel); simpl; lia.
Qed.

End RunFacts.

Section RunWithoutValidInput.
Context `{Adapters} (disk : Disk).

(** X5. A run over files that all lack the marker is no error: it
    completes with one warning for each file, a barrel made from the
    empty text and a metadata document with count 0 and no icons. *)
Theorem run_without_valid_input opts files indexCode tr :
  fs_mkdir disk (outDir opts) = None ->
  globby disk (lit "**/*.svg") (srcDir opts) = inr files ->
  files <> [] ->
  Forall (fun rel =>
            exists svgRaw,
              fs_readFile disk (path_join (srcDir opts) rel) = inr svgRaw
              /\ includes (lit "<svg") svgRaw = false) files ->
  prettier_format [] = inr indexCode ->
  fs_writeFile disk (index_path opts) indexCode = None ->
  fs_writeFile disk (metadata_path opts)
    (lines [ lit "{";
             lit "  " ++ q (lit "count") ++ lit ": 0,";
             lit "  " ++ q (lit "icons") ++ lit ": []";
             lit "}" ]) = None ->
  generate disk opts tr
  = (Ok tt,
     tr ++ [Mkdir (outDir opts); found_of (length files)]
        ++ map warning_of files
        ++ [WriteFile (index_path opts) indexCode;
            WriteFile (metadata_path opts)
              (lines [ lit "{";
                       lit "  " ++ q (lit "count") ++ lit ": 0,";
                       lit "  " ++ q (lit "icons") ++ lit ": []";
                       lit "}" ]);
            generated_of 0]).
Proof.
  intros Hmk Hg Hne Hall Hp Hi Hm.
  assert (Hnone : Forall (fun rel => component_of disk opts rel = Ok None) files).
  { eapply Forall_impl; [exact Hall|].
    intros rel (raw & Hread & Hmark). unfold component_of.
    now rewrite Hread, Hmark. }
  assert (Hman : manifest disk opts files = []
                 /\ flat_map (events_of disk opts) files = map warning_of files).
  { clear -Hnone. unfold manifest.
    induction files as [|rel files IH]; [split; reflexivity|].
    apply Forall_cons in Hnone as [Hr Hnone]. destruct (IH Hnone) as [IHm IHe].
    cbn [List.filter flat_map map].
    rewrite (component_None_valid _ _ _ Hr), IHe. split; [exact IHm|].
    unfold events_of. now rewrite Hr. }
  destruct Hman as [Hman Hev].
  rewrite (generate_runs_through disk opts files indexCode tr Hmk Hg Hne).
  - rewrite Hman, Hev. reflexivity.
  - eapply Forall_impl; [exact Hnone|].
    intros rel Hr. exists None. split; [exact Hr|]. discriminate.
  - now rewrite Hman.
  - exact Hi.
  - rewrite Hman. exact Hm.
Qed.

End RunWithoutValidInput.

Section RunFactsInTheTestWorld.
#[local] Existing Instance TestWorld.adapters.
Import TestWorld MoreWorlds.

Lemma icons_go_through :
  Forall (goes_through icons_disk defaultOpts) (map fst icons).
Proof.
  repeat constructor; eexists; (split; [vm_compute; reflexivity|]);
    intros pretty _; reflexivity.
Defined.

Lemma generate_completes_exactly_when_witness :
  exists tr', generate icons_disk defaultOpts [] = (Ok tt, tr').
Proof.
  apply (proj2 (generate_completes_exactly_when icons_disk defaultOpts [])).
  split; [reflexivity|].
  exists (map fst icons),
         (indexTpl (manifest icons_disk defaultOpts (map fst icons))).
  split; [reflexivity|]. split; [discriminate|].
  split; [exact icons_go_through|]. repeat split.
Defined.

Lemma broken_second_run :
  generate broken_second_disk defaultOpts []
  = (Throw (Raised (lit "SvgoParserError: unclosed root tag")),
     snd (generate broken_second_disk defaultOpts [])).
Proof. vm_compute. reflexivity. Defined.

Lemma failed_run_keeps_its_writes_witness :
  generate broken_second_disk defaultOpts []
  = (Throw (Raised (lit "SvgoParserError: unclosed root tag")),
     snd (generate broken_second_disk defaultOpts []))
  /\ exists evs,
       snd (generate broken_second_disk defaultOpts []) = [] ++ evs
       /\ ((writes evs = []
            /\ (fs_mkdir broken_second_disk (outDir defaultOpts) <> None
                \/ forall files,
                     globby broken_second_disk (lit "**/*.svg")
                       (srcDir defaultOpts) = inr files ->
                     files = []))
           \/ exists files done rest tail,
                fs_mkdir broken_second_disk (outDir defaultOpts) = None
                /\ globby broken_second_disk (lit "**/*.svg")
                     (srcDir defaultOpts) = inr files
                /\ files <> []
                /\ files = done ++ rest
                /\ Forall (goes_through broken_second_disk defaultOpts) done
                /\ evs = [Mkdir (outDir defaultOpts); found_of (length files)]
                         ++ flat_map (events_of broken_second_disk defaultOpts)
                              done
                         ++ tail
                /\ writes evs
                   = map (fun rel => (out_path defaultOpts rel,
                                      text_of broken_second_disk
                                        defaultOpts rel))
                       (List.filter (is_valid broken_second_disk defaultOpts)
                          done)
                     ++ writes tail
                /\ ((tail = []
                     /\ exists rel rest',
                          rest = rel :: rest'
                          /\ ~ goes_through broken_second_disk defaultOpts rel)
                    \/ (tail = [] /\ rest = []
                        /\ forall code,
                             prettier_format
                               (indexTpl (manifest broken_second_disk
                                            defaultOpts files)) = inr code ->
                             fs_writeFile broken_second_disk
                               (index_path defaultOpts) code <> None)
                    \/ (rest = []
                        /\ exists code,
                             prettier_format
                               (indexTpl (manifest broken_second_disk
                                            defaultOpts files)) = inr code
                             /\ fs_writeFile broken_second_disk
                                  (index_path defaultOpts) code = None
                             /\ fs_writeFile broken_second_disk
                                  (metadata_path defaultOpts)
                                  (JSON_stringify
                                     (metadata (manifest broken_second_disk
                                                  defaultOpts files)))
                                <> None
                             /\ tail = [WriteFile (index_path defaultOpts)
                                          code]))).
Proof.
  split; [exact broken_second_run|].
  exact (failed_run_keeps_its_writes broken_second_disk defaultOpts [] _ _
           broken_second_run).
Defined.

(** The paths that failed run wrote. *)
Example writes_of_broken_second_run :
  map fst (writes (snd (generate broken_second_disk defaultOpts [])))
  = [lit "/test/out/Home.tsx"].
Proof. vm_compute. reflexivity. Qed.

Lemma run_writes_only_its_own_files_witness :
  generate icons_disk defaultOpts []
  = (Ok tt, snd (generate icons_disk defaultOpts []))
  /\ exists evs,
       snd (generate icons_disk defaultOpts []) = [] ++ evs
       /\ (mkdirs evs = [] \/ mkdirs evs = [outDir defaultOpts])
       /\ forall p text,
            In (p, text) (writes evs) ->
            p = path_join (outDir defaultOpts) (lit "index.ts")
            \/ p = path_join (outDir defaultOpts) (lit "metadata.json")
            \/ exists files rel,
                 globby icons_disk (lit "**/*.svg") (srcDir defaultOpts)
                 = inr files
                 /\ In rel files
                 /\ is_valid icons_disk defaultOpts rel = true
                 /\ p = path_join (outDir defaultOpts)
                          (pascalCase (path_basename rel (lit ".svg"))
                           ++ lit ".tsx")
                 /\ component_of icons_disk defaultOpts rel = Ok (Some text).
Proof.
  split; [exact icons_run|].
  exact (run_writes_only_its_own_files icons_disk defaultOpts [] _ _ icons_run).
Defined.

Lemma console_accounts_for_every_file_witness :
  generate icons_disk defaultOpts []
  = (Ok tt, snd (generate icons_disk defaultOpts []))
  /\ exists files evs,
       globby icons_disk (lit "**/*.svg") (srcDir defaultOpts) = inr files
       /\ snd (generate icons_disk defaultOpts []) = [] ++ evs
       /\ length (warnings evs)
          + length (manifest icons_disk defaultOpts files)
          = length files.
Proof.
  split; [exact icons_run|].
  destruct (console_accounts_for_every_file icons_disk defaultOpts [] _
              icons_run) as (files & evs & Hg & Hev & _ & _ & Hlen).
  exists files, evs. repeat split; assumption.
Defined.

Lemma run_without_valid_input_witness :
  (fs_mkdir invalid_disk (outDir defaultOpts) = None
   /\ globby invalid_disk (lit "**/*.svg") (srcDir defaultOpts)
      = inr (map fst invalid_only)
   /\ map fst invalid_only <> []
   /\ Forall (fun rel =>
                exists svgRaw,
                  fs_readFile invalid_disk
                    (path_join (srcDir defaultOpts) rel) = inr svgRaw
                  /\ includes (lit "<svg") svgRaw = false)
        (map fst invalid_only)
   /\ prettier_format [] = inr [])
  /\ map fst (writes (snd (generate invalid_disk defaultOpts [])))
     = [lit "/test/out/index.ts"; lit "/test/out/metadata.json"].
Proof.
  assert (Hall : Forall (fun rel =>
                exists svgRaw,
                  fs_readFile invalid_disk
                    (path_join (srcDir defaultOpts) rel) = inr svgRaw
                  /\ includes (lit "<svg") svgRaw = false)
        (map fst invalid_only)).
  { repeat constructor; eexists; split; vm_compute; reflexivity. }
  split.
  { split; [reflexivity|]. split; [reflexivity|]. split; [discriminate|].
    split; [exact Hall | reflexivity]. }
  rewrite (run_without_valid_input invalid_disk defaultOpts
             (map fst invalid_only) [] [] eq_refl eq_refl
             ltac:(discriminate) Hall eq_refl eq_refl eq_refl).
  reflexivity.
Defined.

End RunFactsInTheTestWorld.

(** ** An error of the optimizer *)

Section OptimizerError.
Context `{Adapters} (disk : Disk).

(** C8, as the code has it. When the optimization adapter throws on a
    file, the error propagates out of [generate] and aborts the run. The
    loop body throws it without an effect, and the loop stops at that
    file, with the effects of the files before it kept and no file after
    it processed. A run over an enumeration in which the files before it
    go through throws that error, after the directory, the line of the
    files found and the effects of the files before it, and nothing
    else: its writes are the components of the valid files before it, so
    that neither the barrel nor the metadata document is written. Every
    run over an enumeration that holds the file throws, and has done at
    most the effects of files before the first occurrence of the file. *)
Theorem optimizer_error_aborts_run opts rel svgRaw e :
  fs_readFile disk (path_join (srcDir opts) rel) = inr svgRaw ->
  includes (lit "<svg") svgRaw = true ->
  svgo_optimize svgRaw = inl e ->
  (forall es tr, process_file disk opts rel es tr = (Throw (Raised e), tr))
  /\ (forall pre post es tr,
        for_of disk opts (pre ++ rel :: post) es tr =
        match for_of disk opts pre es tr with
        | (Ok _, tr1) => (Throw (Raised e), tr1)
        | (Throw t, tr1) => (Throw t, tr1)
        end)
  /\ (forall pre post tr,
        fs_mkdir disk (outDir opts) = None ->
        globby disk (lit "**/*.svg") (srcDir opts) = inr (pre ++ rel :: post) ->
        Forall (goes_through disk opts) pre ->
        exists evs,
          generate disk opts tr = (Throw (Raised e), tr ++ evs)
          /\ evs = [Mkdir (outDir opts);
                    found_of (length (pre ++ rel :: post))]
                   ++ flat_map (events_of disk opts) pre
          /\ writes evs
             = map (fun rel => (out_path opts rel, text_of disk opts rel))
                 (List.filter (is_valid disk opts) pre))
  /\ (forall files tr r tr',
        globby disk (lit "**/*.svg") (srcDir opts) = inr files ->
        In rel files ->
        generate disk opts tr = (r, tr') ->
        (exists t, r = Throw t)
        /\ exists evs done rest,
             tr' = tr ++ evs
             /\ files = done ++ rest
             /\ ~ In rel done
             /\ (evs = []
                 \/ evs = [Mkdir (outDir opts); found_of (length files)]
                          ++ flat_map (events_of disk opts) done)
             /\ writes evs
                = map (fun rel => (out_path opts rel, text_of disk opts rel))
                    (List.filter (is_valid disk opts) done)).
Proof.
  intros Hread Hmark Hopt.
  assert (Hc : component_of disk opts rel = Throw (Raised e)).
  { unfold component_of. now rewrite Hread, Hmark, Hopt. }
  assert (Hbody : forall es tr,
             process_file disk opts rel es tr = (Throw (Raised e), tr)).
  { intros es tr. rewrite process_file_eq. now rewrite Hc. }
  assert (Hloop : forall pre post es tr,
             for_of disk opts (pre ++ rel :: post) es tr =
             match for_of disk opts pre es tr with
             | (Ok _, tr1) => (Throw (Raised e), tr1)
             | (Throw t, tr1) => (Throw t, tr1)
             end).
  { intros pre post es tr. rewrite for_of_app.
    destruct (for_of disk opts pre es tr) as [[es1|t] tr1]; [|reflexivity].
    simpl. unfold bind. now rewrite Hbody. }
  assert (Hstuck : ~ goes_through disk opts rel).
  { intros (r & Hr & _). rewrite Hc in Hr. discriminate. }
  split; [exact Hbody|]. split; [exact Hloop|]. split.
  - intros pre post tr Hmk Hglob Hpre. eexists. split; [|split; [reflexivity|]].
    + unfold generate, bind, call, perform, emit, throw, ret.
      rewrite Hmk, Hglob.
      replace (Nat.eqb (length (pre ++ rel :: post)) 0) with false
        by (now destruct pre).
      rewrite Hloop, (for_of_completes disk opts pre _ _ Hpre).
      unfold found_of. now rewrite <- !app_assoc.
    + rewrite writes_app.
      now rewrite (writes_of_loop disk opts pre (goes_through_result _ _ _ Hpre)).
  - intros files tr r tr' Hglob Hin Hrun.
    apply generate_any in Hrun
      as [(Ht & _ & ->)
         |[(_ & _ & Hg & _)
          |(files' & done & rest & tail & _ & Hg & _ & Hfiles & Hall & ->
            & Htail)]].
    + split; [exact Ht|]. exists [], [], files.
      rewrite app_nil_r. repeat split; auto.
    + rewrite (Hg files Hglob) in Hin. destruct Hin.
    + rewrite Hglob in Hg. injection Hg as <-.
      assert (Hdone : ~ In rel done).
      { intros Hd. apply Hstuck. rewrite Forall_forall in Hall.
        apply Hall. now apply list_elem_of_In. }
      destruct Htail
        as [(-> & Ht & _)
           |[(-> & _)|(-> & _)]].
      * split; [exact Ht|]. eexists. exists done, rest.
        split; [reflexivity|]. rewrite !app_nil_r.
        split; [exact Hfiles|]. split; [exact Hdone|]. split; [now right|].
        rewrite writes_app.
        now rewrite (writes_of_loop disk opts done
                       (goes_through_result _ _ _ Hall)).
      * rewrite app_nil_r in Hfiles. subst done. contradiction.
      * rewrite app_nil_r in Hfiles. subst done. contradiction.
Qed.

End OptimizerError.

Section OptimizerErrorInTheTestWorld.
#[local] Existing Instance TestWorld.adapters.
Import TestWorld MoreWorlds.

Lemma optimizer_error_aborts_run_witness :
  (fs_readFile broken_second_disk
     (path_join (srcDir defaultOpts) (lit "broken.svg"))
   = inr (lit "<svg><path")
   /\ includes (lit "<svg") (lit "<svg><path") = true
   /\ svgo_optimize (lit "<svg><path")
      = inl (lit "SvgoParserError: unclosed root tag"))
  /\ exists evs,
       generate broken_second_disk defaultOpts []
       = (Throw (Raised (lit "SvgoParserError: unclosed root tag")), [] ++ evs)
       /\ map fst (writes evs) = [lit "/test/out/Home.tsx"].
Proof.
  split; [repeat split; reflexivity|].
  assert (Hpre : Forall (goes_through broken_second_disk defaultOpts)
                   [lit "home.svg"]).
  { repeat constructor. eexists. split; [vm_compute; reflexivity|].
    intros pretty _. reflexivity. }
  destruct (proj1 (proj2 (proj2
              (optimizer_error_aborts_run broken_second_disk defaultOpts
                 (lit "broken.svg") (lit "<svg><path")
                 (lit "SvgoParserError: unclosed root tag")
                 eq_refl eq_refl eq_refl)))
              [lit "home.svg"] [] [] eq_refl eq_refl Hpre)
    as (evs & Hrun & _ & Hw).
  exists evs. split; [exact Hrun|]. rewrite Hw. vm_compute. reflexivity.
Defined.

(** C8, as the specification has it, fails: were the file of the failing
    optimization only skipped, the loop over it and a good file would
    complete as the loop over the good file does. It throws. *)
Lemma optimizer_error_is_not_skipped :
  ~ (forall (A : Adapters) (disk : Disk) opts rel svgRaw e,
       fs_readFile disk (path_join (srcDir opts) rel) = inr svgRaw ->
       includes (lit "<svg") svgRaw = true ->
       svgo_optimize svgRaw = inl e ->
       forall post es tr es' tr',
         for_of disk opts post es tr = (Ok es', tr') ->
         exists tr'', for_of disk opts (rel :: post) es tr = (Ok es', tr'')).
Proof.
  intros Hclaim.
  pose proof (Hclaim adapters broken_disk defaultOpts (lit "broken.svg")
                (lit "<svg><path") (lit "SvgoParserError: unclosed root tag")
                eq_refl eq_refl eq_refl [lit "home.svg"] [] []) as Hc.
  destruct (for_of broken_disk defaultOpts [lit "home.svg"] [] [])
    as [[es'|t] tr'] eqn:E.
  - destruct (Hc es' tr' eq_refl) as [tr'' Heq].
    vm_compute in Heq. discriminate.
  - vm_compute in E. discriminate.
Qed.

End OptimizerErrorInTheTestWorld.

(** ** The body taken from the transformed markup *)

Lemma svg_match_skip pre t :
  no_start (lit "<svg") pre = true -> svg_match (pre ++ t) = svg_match t.
Proof.
  induction pre as [|c pre IH]; intros Hpre; [reflexivity|].
  cbn [no_start] in Hpre. apply andb_true_iff in Hpre as [Hm Hpre].
  change ((c :: pre) ++ t) with (c :: pre ++ t). cbn [svg_match].
  unfold svg_match_here at 1.
  change (c :: pre ++ t) with ((c :: pre) ++ t).
  rewrite (mismatch_strip _ _ t Hm). now apply IH.
Qed.

Lemma after_first_skip c v s : ~ In c v -> after_first c (v ++ c :: s) = Some s.
Proof.
  induction v as [|x v IH]; intros Hv; simpl.
  - now rewrite N.eqb_refl.
  - destruct (N.eqb x c) eqn:E.
    + apply N.eqb_eq in E. exfalso. apply Hv. now left.
    + apply IH. intros Hin. apply Hv. now right.
Qed.

Lemma until_found p body post :
  no_start p body = true -> until p (body ++ p ++ post) = Some (body, post).
Proof.
  intros Hb. rewrite (until_skip p body _ Hb).
  destruct p as [|a p].
  - destruct post; simpl; now rewrite app_nil_r.
  - change ((a :: p) ++ post) with (a :: p ++ post). cbn [until].
    change (a :: p ++ post) with ((a :: p) ++ post).
    rewrite (strip_prefix_app (a :: p) post).
    now rewrite app_nil_r.
Qed.

(** X6. The body of the first svg element is what stands between the
    end of its opening tag and the first closing tag: when the opening
    tag holds no closing angle bracket besides its own and the body no
    closing tag, the body is taken whole, whatever stands before the
    element and after it. *)
Theorem raw_body_of_root pre attrs body post :
  no_start (lit "<svg") pre = true ->
  ~ In gt attrs ->
  no_start (lit "</svg>") body = true ->
  raw_body (pre ++ lit "<svg" ++ attrs ++ gt :: body ++ lit "</svg>" ++ post)
  = body.
Proof.
  intros Hpre Hattrs Hbody. unfold raw_body.
  rewrite (svg_match_skip pre _ Hpre).
  assert (Hhere : svg_match_here
                    (lit "<svg" ++ attrs ++ gt :: body ++ lit "</svg>" ++ post)
                  = Some body).
  { unfold svg_match_here. rewrite strip_prefix_app.
    rewrite (after_first_skip gt attrs _ Hattrs).
    now rewrite (until_found _ body post Hbody). }
  change (lit "<svg" ++ attrs ++ gt :: body ++ lit "</svg>" ++ post)
    with (60%N :: (lit "svg" ++ attrs ++ gt :: body ++ lit "</svg>" ++ post))
    in *.
  cbn [svg_match]. now rewrite Hhere.
Qed.

Lemma raw_body_of_root_witness :
  (no_start (lit "<svg") (lit "export default () => (") = true
   /\ ~ In gt (lit " viewBox=" ++ q (lit "0 0 24 24"))
   /\ no_start (lit "</svg>") (lit "<path d=" ++ q (lit "M10 10") ++ lit "/>")
      = true)
  /\ raw_body (lit "export default () => (" ++ lit "<svg"
               ++ (lit " viewBox=" ++ q (lit "0 0 24 24"))
               ++ gt :: (lit "<path d=" ++ q (lit "M10 10") ++ lit "/>")
               ++ lit "</svg>" ++ lit ");")
     = lit "<path d=" ++ q (lit "M10 10") ++ lit "/>".
Proof.
  assert (Hattrs : ~ In gt (lit " viewBox=" ++ q (lit "0 0 24 24"))).
  { intros Hin. vm_compute in Hin.
    repeat (destruct Hin as [Hin|Hin]; [discriminate|]). exact Hin. }
  split; [split; [reflexivity|]; split; [exact Hattrs | reflexivity]|].
  exact (raw_body_of_root (lit "export default () => (")
           (lit " viewBox=" ++ q (lit "0 0 24 24"))
           (lit "<path d=" ++ q (lit "M10 10") ++ lit "/>") (lit ");")
           eq_refl Hattrs eq_refl).
Defined.

Lemma until_includes p s body rest :
  until p s = Some (body, rest) -> includes p s = true.
Proof.
  revert body. induction s as [|c s IH]; intros body Hu.
  - cbn [until includes] in *.
    destruct (strip_prefix p []); [reflexivity | discriminate].
  - cbn [until includes] in *.
    destruct (strip_prefix p (c :: s)); [reflexivity|].
    destruct (until p s) as [[b r]|]; [|discriminate].
    injection Hu as <- <-. now apply (IH b).
Qed.

Lemma after_first_In c s rest : after_first c s = Some rest -> In c s.
Proof.
  intros Hs. destruct (after_first_spec c s rest Hs) as [v ->].
  apply in_or_app. right. now left.
Qed.

Lemma includes_cons p c s : includes p s = true -> includes p (c :: s) = true.
Proof. apply (includes_app p [c] s). Qed.

(** A match of the expression needs the three parts of the element. *)
Lemma svg_match_needs s body :
  svg_match s = Some body ->
  includes (lit "<svg") s = true /\ In gt s
  /\ includes (lit "</svg>") s = true.
Proof.
  induction s as [|c s IH]; intros Hm.
  - discriminate.
  - cbn [svg_match] in Hm.
    destruct (svg_match_here (c :: s)) as [b|] eqn:Eh.
    + clear IH Hm. unfold svg_match_here in Eh.
      destruct (strip_prefix (lit "<svg") (c :: s)) as [rest|] eqn:Ep;
        [|discriminate].
      destruct (after_first gt rest) as [rest'|] eqn:Ea; [|discriminate].
      destruct (until (lit "</svg>") rest') as [[b' r]|] eqn:Eu;
        [|discriminate].
      apply strip_prefix_spec in Ep. rewrite Ep.
      destruct (after_first_spec _ _ _ Ea) as [v ->].
      split; [apply includes_self|]. split.
      * apply in_or_app. right. apply in_or_app. right. now left.
      * apply includes_app.
        change (v ++ gt :: rest') with (v ++ [gt] ++ rest').
        apply includes_app, includes_app. exact (until_includes _ _ _ _ Eu).
    + destruct (IH Hm) as (H1 & H2 & H3).
      split; [now apply includes_cons|].
      split; [now right | now apply includes_cons].
Qed.

(** X7. When the transformed markup holds no opening of an svg element,
    or no closing angle bracket, or no closing svg tag, the body is the
    empty text, and so is the sanitized body that goes into the
    component. *)
Theorem raw_body_without_root jsx :
  includes (lit "<svg") jsx = false
  \/ ~ In gt jsx
  \/ includes (lit "</svg>") jsx = false ->
  raw_body jsx = [] /\ sanitize (raw_body jsx) = [].
Proof.
  intros Hno.
  assert (Hraw : raw_body jsx = []).
  { unfold raw_body. destruct (svg_match jsx) as [body|] eqn:Em;
      [|reflexivity].
    destruct (svg_match_needs jsx body Em) as (H1 & H2 & H3).
    destruct Hno as [Hno|[Hno|Hno]]; [congruence | contradiction | congruence]. }
  split; [exact Hraw|]. rewrite Hraw. reflexivity.
Qed.

Lemma raw_body_without_root_witness :
  (includes (lit "<svg") (lit "export default () => (null);") = false
   \/ ~ In gt (lit "export default () => (null);")
   \/ includes (lit "</svg>") (lit "export default () => (null);") = false)
  /\ raw_body (lit "export default () => (null);") = [].
Proof.
  split; [now left|].
  exact (proj1 (raw_body_without_root (lit "export default () => (null);")
                  (or_introl eq_refl))).
Defined.

(** ** What sanitization keeps *)

Lemma remove_attr_sublist name s : sublist (remove_attr name s) s.
Proof.
  induction s as [|s rest E IH|c s E IH] using (scan_ind name).
  - rewrite remove_attr_eq, attr_match_nil. constructor.
  - rewrite (remove_attr_match name s rest E).
    destruct (attr_match_suffix name s rest E) as [w ->].
    now apply sublist_inserts_l.
  - rewrite (remove_attr_keep name c s E). now apply sublist_skip.
Qed.

Lemma trim_sublist s : sublist (trim s) s.
Proof.
  destruct (trim_infix s) as (before & after & Hs). rewrite Hs at 2.
  apply sublist_inserts_l, sublist_inserts_r. reflexivity.
Qed.

(** X8. Sanitization only deletes: the sanitized body is the raw body
    with some code units left out, the others in their order; it is never
    longer, and every code unit of it is one of the raw body. *)
Theorem sanitize_only_deletes raw :
  sublist (sanitize raw) raw
  /\ length (sanitize raw) <= length raw
  /\ forall c, In c (sanitize raw) -> In c raw.
Proof.
  assert (Hsub : sublist (sanitize raw) raw).
  { unfold sanitize, strip_colors.
    etransitivity; [apply trim_sublist|].
    etransitivity; apply remove_attr_sublist. }
  split; [exact Hsub|]. split.
  - now apply sublist_length.
  - intros c Hc. apply list_elem_of_In. apply list_elem_of_In in Hc.
    eapply elem_of_sublist; eassumption.
Qed.

(** X9. The sanitized body neither starts nor ends with white space,
    and trimming it again changes nothing. *)
Theorem sanitize_is_trimmed raw :
  (forall c rest, sanitize raw = c :: rest -> is_space c = false)
  /\ (forall c init, sanitize raw = init ++ [c] -> is_space c = false)
  /\ trim (sanitize raw) = sanitize raw.
Proof.
  unfold sanitize. generalize (strip_colors raw). intros s.
  split; [|split; [|apply trim_idem]].
  - intros c rest Hs. unfold trim in Hs.
    pose proof (trimStart_head s) as Hh.
    destruct (trimEnd_prefix (trimStart s)) as [w Hw].
    rewrite Hs in Hw. rewrite Hw in Hh. exact Hh.
  - intros c init Hs. unfold trim, trimEnd in Hs.
    pose proof (trimStart_head (rev (trimStart s))) as Hh.
    apply (f_equal (@rev N)) in Hs.
    rewrite rev_involutive, rev_app_distr in Hs. simpl in Hs.
    rewrite Hs in Hh. exact Hh.
Qed.

(** X10. An attribute is removed where it stands, with its value, and
    the scan goes on behind it: the text before an attribute in which
    the attribute cannot start is kept as it is, whatever its last code
    units are. A value has no double quote. *)
Theorem attribute_removed_where_it_stands name pre v post :
  no_start (name ++ lit "=" ++ [dq]) pre = true ->
  ~ In dq v ->
  remove_attr name (pre ++ (name ++ lit "=" ++ [dq]) ++ v ++ dq :: post)
  = pre ++ remove_attr name post.
Proof.
  intros Hpre Hv. induction pre as [|c pre IH].
  - apply remove_attr_match. unfold attr_match.
    cbn [app]. rewrite strip_prefix_app. now apply after_first_skip.
  - cbn [no_start] in Hpre. apply andb_true_iff in Hpre as [Hm Hpre].
    assert (E : attr_match name
                  ((c :: pre) ++ (name ++ lit "=" ++ [dq]) ++ v ++ dq :: post)
                = None).
    { unfold attr_match. now rewrite (mismatch_strip _ _ _ Hm). }
    change ((c :: pre) ++ ?t) with (c :: pre ++ t) in *.
    rewrite (remove_attr_keep name c _ E). now rewrite IH.
Qed.

Lemma attribute_removed_where_it_stands_witness :
  (no_start (lit "fill" ++ lit "=" ++ [dq]) (lit "<path data-") = true
   /\ ~ In dq (lit "#000"))
  /\ remove_attr (lit "fill")
       (lit "<path data-" ++ (lit "fill" ++ lit "=" ++ [dq]) ++ lit "#000"
        ++ dq :: lit "/>")
     = lit "<path data-" ++ remove_attr (lit "fill") (lit "/>").
Proof.
  assert (Hv : ~ In dq (lit "#000")).
  { intros Hin. vm_compute in Hin.
    repeat (destruct Hin as [Hin|Hin]; [discriminate|]). exact Hin. }
  split; [split; [reflexivity | exact Hv]|].
  exact (attribute_removed_where_it_stands (lit "fill") (lit "<path data-")
           (lit "#000") (lit "/>") eq_refl Hv).
Defined.

(** ** The barrel *)

Lemma not_In_app (x : N) a b : ~ In x a -> ~ In x b -> ~ In x (a ++ b).
Proof. intros Ha Hb Hin. apply in_app_or in Hin. tauto. Qed.

Lemma not_In_cons (x c : N) l : x <> c -> ~ In x l -> ~ In x (c :: l).
Proof. intros Hc Hl [Hin|Hin]; [now apply Hc | contradiction]. Qed.

(** A code unit that is not in a literal. *)
Ltac lit_free :=
  let Hin := fresh "Hin" in
  intros Hin; vm_compute in Hin;
  repeat (destruct Hin as [Hin|Hin]; [discriminate|]); exact Hin.

Section Barrel.
Context `{Adapters}.

Lemma indexTpl_app es1 es2 : indexTpl (es1 ++ es2) = indexTpl es1 ++ indexTpl es2.
Proof. unfold indexTpl. now rewrite map_app, concat_app. Qed.

(** X11. The barrel has one line for each entry, in the order of the
    entries: the export of the default of the file of the entry under the
    name of the entry; after the last line the text ends. The escaped
    name and file hold no line feed. *)
Theorem barrel_has_a_line_per_entry entries :
  Forall (fun e => ~ In nl (handlebars_escape (name e))
                   /\ ~ In nl (handlebars_escape (file e))) entries ->
  split nl (indexTpl entries)
  = map (fun e => lit "export { default as " ++ handlebars_escape (name e)
                  ++ lit " } from "
                  ++ q (lit "./" ++ handlebars_escape (file e)) ++ lit ";")
      entries
    ++ [[]].
Proof.
  induction entries as [|e entries IH]; intros Hall; [reflexivity|].
  apply Forall_cons in Hall as [[Hn Hf] Hall].
  change (e :: entries) with ([e] ++ entries). rewrite indexTpl_app.
  unfold indexTpl at 1. cbn [map concat]. rewrite app_nil_r.
  cbn [app map]. rewrite <- IH by exact Hall.
  match goal with
  | |- split nl (?a ++ ?b) = ?l :: _ =>
      replace (a ++ b) with (l ++ nl :: b)
  end.
  - apply split_app. unfold q.
    repeat first
      [ assumption
      | apply not_In_app
      | apply not_In_cons; [discriminate|]
      | lit_free ].
  - unfold q. rewrite <- !app_assoc. cbn [app]. rewrite <- !app_assoc.
    reflexivity.
Qed.

End Barrel.

Section BarrelInTheTestWorld.
#[local] Existing Instance TestWorld.adapters.
Import TestWorld.

Lemma barrel_has_a_line_per_entry_witness :
  Forall (fun e => ~ In nl (handlebars_escape (name e))
                   /\ ~ In nl (handlebars_escape (file e)))
    (manifest icons_disk defaultOpts (map fst icons))
  /\ split nl (indexTpl (manifest icons_disk defaultOpts (map fst icons)))
     = [ lit "export { default as IconarrowLeftCircle } from "
         ++ q (lit "./ArrowLeftCircle") ++ lit ";";
         lit "export { default as Iconhome } from " ++ q (lit "./Home")
         ++ lit ";";
         [] ].
Proof.
  assert (Hall : Forall (fun e => ~ In nl (handlebars_escape (name e))
                                  /\ ~ In nl (handlebars_escape (file e)))
                   (manifest icons_disk defaultOpts (map fst icons))).
  { repeat constructor; lit_free. }
  split; [exact Hall|].
  rewrite (barrel_has_a_line_per_entry _ Hall). vm_compute. reflexivity.
Defined.

End BarrelInTheTestWorld.

(** ** The root element, attribute by attribute *)

Section RootAttributes.
Context `{Adapters}.

(** X12. The root element of a component binds width and height to the
    size, has the view box 0 0 24 24 and round line caps and joins, is
    hidden from assistive technology exactly when there is no title, and
    spreads the remaining props after all its other attributes, so that
    an attribute of the caller overrides a computed one. *)
Theorem root_spreads_props_last opts compName body :
  no_angle compName = true ->
  no_angle (number_toString (defaultSize opts)) = true ->
  no_angle (number_toString (defaultStrokeWidth opts)) = true ->
  exists attrs,
    root_attrs (tsx_of opts compName body)
    = Some (attrs ++ [([], lit "{...props}")])
    /\ map fst attrs
       = [ lit "ref"; lit "width"; lit "height"; lit "aria-hidden";
           lit "aria-labelledby"; lit "role"; lit "viewBox"; lit "fill";
           lit "stroke"; lit "strokeWidth"; lit "strokeLinecap";
           lit "strokeLinejoin" ]
    /\ root_attr (tsx_of opts compName body) (lit "width") = Some (lit "{size}")
    /\ root_attr (tsx_of opts compName body) (lit "height")
       = Some (lit "{size}")
    /\ root_attr (tsx_of opts compName body) (lit "viewBox")
       = Some (q (lit "0 0 24 24"))
    /\ root_attr (tsx_of opts compName body) (lit "aria-hidden")
       = Some (lit "{title ? undefined : " ++ q (lit "true") ++ lit "}")
    /\ root_attr (tsx_of opts compName body) (lit "aria-labelledby")
       = Some (lit "{title ? titleId : undefined}")
    /\ root_attr (tsx_of opts compName body) (lit "role")
       = Some (lit "{title ? " ++ q (lit "img") ++ lit " : "
               ++ q (lit "presentation") ++ lit "}")
    /\ root_attr (tsx_of opts compName body) (lit "strokeLinecap")
       = Some (q (lit "round"))
    /\ root_attr (tsx_of opts compName body) (lit "strokeLinejoin")
       = Some (q (lit "round")).
Proof.
  intros Hname Hsize Hwidth.
  pose proof (root_attrs_of_tsx opts compName body Hname Hsize Hwidth) as Hroot.
  unfold root_attr. rewrite Hroot.
  eexists (_ :: _ :: _ :: _ :: _ :: _ :: _ :: _ :: _ :: _ :: _ :: [_]).
  split; [reflexivity|].
  split; [reflexivity|].
  repeat split; vm_compute; reflexivity.
Qed.

End RootAttributes.

Section RootAttributesInTheTestWorld.
#[local] Existing Instance TestWorld.adapters.
Import TestWorld.

Lemma root_spreads_props_last_witness :
  (no_angle (lit "IconHome") = true
   /\ no_angle (number_toString (defaultSize defaultOpts)) = true
   /\ no_angle (number_toString (defaultStrokeWidth defaultOpts)) = true)
  /\ exists attrs,
       root_attrs (tsx_of defaultOpts (lit "IconHome") (lit "<path />"))
       = Some (attrs ++ [([], lit "{...props}")]).
Proof.
  split; [repeat split; reflexivity|].
  destruct (root_spreads_props_last defaultOpts (lit "IconHome")
              (lit "<path />") eq_refl eq_refl eq_refl)
    as (attrs & Hroot & _).
  now exists attrs.
Defined.

End RootAttributesInTheTestWorld.

(** ** The command line *)

Section CommandLine.
Context `{Process} (disk : Disk).

(** X13. The action lets no error out. When the run completes, the
    effects are the three opening lines, those of the run and the closing
    line. When the run fails, they are the opening lines, what the run
    did before it failed, the error line with the message of the error,
    and the exit with status 1; the closing line is not printed. *)
Theorem action_reports_failure opts tr :
  exists evs,
    action disk opts tr = (Ok tt, tr ++ evs)
    /\ ((exists gen,
           generate disk (generate_opts opts) [] = (Ok tt, gen)
           /\ evs
              = map Effect
                  ([ConsoleLog (lit "Generating icons...");
                    ConsoleLog (lit "   Source: "
                                ++ srcDir (generate_opts opts));
                    ConsoleLog (lit "   Output: "
                                ++ outDir (generate_opts opts) ++ [nl])]
                   ++ gen
                   ++ [ConsoleLog ([nl] ++ lit "Generated icons from "
                                   ++ srcDir (generate_opts opts)
                                   ++ lit " " ++ [8594%N] ++ lit " "
                                   ++ outDir (generate_opts opts))]))
        \/ (exists t gen,
              generate disk (generate_opts opts) [] = (Throw t, gen)
              /\ evs
                 = map Effect
                     ([ConsoleLog (lit "Generating icons...");
                       ConsoleLog (lit "   Source: "
                                   ++ srcDir (generate_opts opts));
                       ConsoleLog (lit "   Output: "
                                   ++ outDir (generate_opts opts) ++ [nl])]
                      ++ gen)
                   ++ [ConsoleError [[nl] ++ lit "Error:"; error_text t];
                       Exit 1])).
Proof.
  unfold action, try_catch, cli_bind, cli_emit, await.
  destruct (generate disk (generate_opts opts) []) as [[[]|t] gen] eqn:Eg.
  - eexists. split; [|left; exists gen; split; [reflexivity|]].
    + rewrite <- !app_assoc. reflexivity.
    + rewrite !map_app. reflexivity.
  - eexists. split; [|right; exists t, gen; split; [reflexivity|]].
    + rewrite <- !app_assoc. reflexivity.
    + rewrite !map_app. rewrite <- !app_assoc. reflexivity.
Qed.

(** X14. On a source directory without svg files the action makes the
    output directory, prints the error line that names the resolved
    source directory, and exits with status 1. *)
Theorem action_on_empty_source opts :
  fs_mkdir disk (path_resolve process_cwd (cli_out opts)) = None ->
  globby disk (lit "**/*.svg") (path_resolve process_cwd (cli_src opts))
  = inr [] ->
  action disk opts []
  = (Ok tt,
     [ Effect (ConsoleLog (lit "Generating icons..."));
       Effect (ConsoleLog (lit "   Source: "
                           ++ path_resolve process_cwd (cli_src opts)));
       Effect (ConsoleLog (lit "   Output: "
                           ++ path_resolve process_cwd (cli_out opts)
                           ++ [nl]));
       Effect (Mkdir (path_resolve process_cwd (cli_out opts)));
       ConsoleError [ [nl] ++ lit "Error:";
                      lit "No SVG files found in "
                      ++ path_resolve process_cwd (cli_src opts) ];
       Exit 1 ]).
Proof.
  intros Hmk Hg.
  unfold action, try_catch, cli_bind, cli_emit, await.
  unfold generate, bind, perform, call, emit, throw, ret.
  cbn [generate_opts srcDir outDir]. rewrite Hmk, Hg. reflexivity.
Qed.

(** X15. The action passes the text of the prefix option on. When the
    action does not exit, the metadata document it writes holds, for each
    enumerated file with the marker, in enumeration order, the component
    identifier that is the pascal case of the prefix text followed by the
    base name, beside the file identifier and the tags; the line printed
    for each such file names that identifier; and with the default, the
    empty text, the component identifier is the file identifier. *)
Theorem action_names_components opts tr evs :
  action disk opts tr = (Ok tt, tr ++ evs) ->
  ~ In (Exit 1) evs ->
  exists files,
    globby disk (lit "**/*.svg") (path_resolve process_cwd (cli_src opts))
    = inr files
    /\ let valid :=
         List.filter
           (fun rel =>
              match fs_readFile disk
                      (path_join (path_resolve process_cwd (cli_src opts)) rel)
              with
              | inr svgRaw => includes (lit "<svg") svgRaw
              | inl _ => false
              end) files in
       let entries :=
         map (fun rel =>
                {| name := pascalCase (cli_prefix opts
                                       ++ path_basename rel (lit ".svg"));
                   file := pascalCase (path_basename rel (lit ".svg"));
                   tags := split hyphen (path_basename rel (lit ".svg")) |})
           valid in
       In (Effect (WriteFile
                     (path_join (path_resolve process_cwd (cli_out opts))
                        (lit "metadata.json"))
                     (JSON_stringify (metadata entries)))) evs
       /\ Forall (fun rel =>
                    In (Effect (ConsoleLog
                                  (lit "  " ++ [10003%N] ++ lit " "
                                   ++ path_basename rel (lit ".svg") ++ lit " "
                                   ++ [8594%N] ++ lit " "
                                   ++ pascalCase
                                        (cli_prefix opts
                                         ++ path_basename rel (lit ".svg")))))
                      evs) valid
       /\ (cli_prefix opts = [] -> Forall (fun e => name e = file e) entries).
Proof.
  unfold action, try_catch, cli_bind, cli_emit, await.
  destruct (generate disk (generate_opts opts) []) as [[[]|t] gen] eqn:Eg;
    intros Hact Hexit; injection Hact as Hact;
    rewrite <- !app_assoc in Hact; apply app_inv_head in Hact; subst evs.
  - apply generate_Ok in Eg as (files & code & Hg & _ & _ & Hall & ->).
    exists files. split; [exact Hg|]. cbv zeta.
    change ([] ++ ?l) with l.
    split; [|split].
    + do 3 (apply in_or_app; right). apply in_or_app. left. apply in_map.
      do 2 (apply in_or_app; right). right. left. reflexivity.
    + apply Forall_forall. intros rel Hrel.
      apply list_elem_of_In, filter_In in Hrel as [Hrel Hvalid].
      do 3 (apply in_or_app; right). apply in_or_app. left. apply in_map.
      apply in_or_app. right. apply in_or_app. left.
      apply in_flat_map. exists rel. split; [exact Hrel|].
      rewrite Forall_forall in Hall.
      destruct (Hall rel) as [r Hr]; [now apply list_elem_of_In|].
      unfold events_of. rewrite Hr. destruct r as [pretty|].
      * right. left. reflexivity.
      * apply component_None_valid in Hr. unfold is_valid in Hr.
        cbn [generate_opts srcDir] in Hr. rewrite Hr in Hvalid.
        discriminate.
    + intros Hp. apply Forall_forall. intros e He.
      apply list_elem_of_In, in_map_iff in He as (rel & <- & _).
      cbn [name file]. now rewrite Hp.
  - exfalso. apply Hexit.
    apply in_or_app. right. apply in_or_app. right. apply in_or_app. right.
    apply in_or_app. right. right. now left.
Qed.

End CommandLine.

Section CommandLineInTheTestWorld.
#[local] Existing Instance TestWorld.adapters.
#[local] Existing Instance CliWorld.process.
Import TestWorld CliWorld.

Lemma action_on_empty_source_witness :
  (fs_mkdir bare_disk (path_resolve process_cwd (cli_out cli_defaults)) = None
   /\ globby bare_disk (lit "**/*.svg")
        (path_resolve process_cwd (cli_src cli_defaults)) = inr [])
  /\ action bare_disk cli_defaults []
     = (Ok tt,
        [ Effect (ConsoleLog (lit "Generating icons..."));
          Effect (ConsoleLog (lit "   Source: /work/icons-src"));
          Effect (ConsoleLog (lit "   Output: /work/icons" ++ [nl]));
          Effect (Mkdir (lit "/work/icons"));
          ConsoleError [ [nl] ++ lit "Error:";
                         lit "No SVG files found in /work/icons-src" ];
          Exit 1 ]).
Proof.
  split; [split; reflexivity|].
  exact (action_on_empty_source bare_disk cli_defaults eq_refl eq_refl).
Defined.

Lemma action_with_prefix_run :
  action work_disk with_prefix []
  = (Ok tt, [] ++ snd (action work_disk with_prefix [])).
Proof. vm_compute. reflexivity. Defined.

Lemma action_names_components_witness :
  (action work_disk with_prefix []
   = (Ok tt, [] ++ snd (action work_disk with_prefix []))
   /\ ~ In (Exit 1) (snd (action work_disk with_prefix [])))
  /\ exists files,
       globby work_disk (lit "**/*.svg")
         (path_resolve process_cwd (cli_src with_prefix)) = inr files
       /\ In (Effect (ConsoleLog (lit "  " ++ [10003%N] ++ lit " home "
                                  ++ [8594%N] ++ lit " Iconhome")))
            (snd (action work_disk with_prefix [])).
Proof.
  assert (Hexit : ~ In (Exit 1) (snd (action work_disk with_prefix []))).
  { intros Hin. vm_compute in Hin.
    repeat (destruct Hin as [Hin|Hin]; [discriminate|]). exact Hin. }
  split; [split; [exact action_with_prefix_run | exact Hexit]|].
  destruct (action_names_components work_disk with_prefix [] _
              action_with_prefix_run Hexit)
    as (files & Hg & _ & Hlog & _).
  exists files. split; [exact Hg|].
  vm_compute in Hg. injection Hg as <-.
  apply Forall_forall with (x := lit "home.svg") in Hlog.
  - vm_compute in Hlog. vm_compute. exact Hlog.
  - apply list_elem_of_In. vm_compute. right. now left.
Defined.

(** With the defaults, over the three icons: no exit, and the writes. *)
Example action_with_defaults :
  let evs := snd (action work_disk cli_defaults []) in
  existsb (fun e => match e with Exit _ | ConsoleError _ => true | _ => false end)
    evs = false
  /\ flat_map (fun e => match e with
                        | Effect (WriteFile path _) => [path]
                        | _ => []
                        end) evs
     = [ lit "/work/icons/ArrowLeftCircle.tsx"; lit "/work/icons/Home.tsx";
         lit "/work/icons/index.ts"; lit "/work/icons/metadata.json" ].
Proof. split; vm_compute; reflexivity. Qed.

End CommandLineInTheTestWorld.

(** ** The strings of the metadata document *)

Lemma hex_value_digit d : (d < 16)%N -> hex_value (hex_digit d) = Some d.
Proof.
  intros Hd.
  assert (Hcases : In d [0; 1; 2; 3; 4; 5; 6; 7; 8; 9; 10; 11; 12; 13; 14; 15]%N).
  { simpl. lia. }
  simpl in Hcases.
  repeat (destruct Hcases as [<-|Hcases]; [reflexivity|]). contradiction.
Qed.

Lemma hex4_escape c :
  (c < 65536)%N ->
  hex4 (hex_digit (N.shiftr c 12 mod 16)) (hex_digit (N.shiftr c 8 mod 16))
       (hex_digit (N.shiftr c 4 mod 16)) (hex_digit (c mod 16))
  = Some c.
Proof.
  intros Hc. unfold hex4.
  rewrite !hex_value_digit by (apply N.mod_lt; discriminate).
  f_equal. rewrite !N.shiftr_div_pow2.
  change (2 ^ 12)%N with (16 * 16 * 16)%N.
  change (2 ^ 8)%N with (16 * 16)%N. change (2 ^ 4)%N with 16%N.
  rewrite <- !N.Div0.div_div.
  pose proof (N.Div0.div_mod c 16) as H0.
  pose proof (N.mod_lt c 16 ltac:(discriminate)) as L0.
  generalize dependent (c mod 16)%N. generalize dependent (c / 16)%N.
  intros x1 r0 H0 L0.
  pose proof (N.Div0.div_mod x1 16) as H1.
  pose proof (N.mod_lt x1 16 ltac:(discriminate)) as L1.
  generalize dependent (x1 mod 16)%N. generalize dependent (x1 / 16)%N.
  intros x2 r1 H1 L1.
  pose proof (N.Div0.div_mod x2 16) as H2.
  pose proof (N.mod_lt x2 16 ltac:(discriminate)) as L2.
  generalize dependent (x2 mod 16)%N. generalize dependent (x2 / 16)%N.
  intros x3 r2 H2 L2.
  assert (x3 < 16)%N by lia. rewrite (N.mod_small x3 16) by assumption. lia.
Qed.

(** An escape of four digits reads back as its code unit. *)
Lemma read_unicode_escape c s rest :
  (c < 65536)%N ->
  read_string_body (unicode_escape c ++ s ++ dq :: rest)
  = cons_read c (read_string_body (s ++ dq :: rest)).
Proof.
  intros Hc. unfold unicode_escape. cbn [app read_string_body].
  change (92 =? 34)%N with false. change (92 =? 92)%N with true.
  change (117 =? 117)%N with true. cbv iota.
  now rewrite (hex4_escape c Hc).
Qed.

(** A code unit that is written as it is reads back as it is. *)
Lemma read_plain c s :
  (c =? 34)%N = false -> (c =? 92)%N = false -> (c <? 32)%N = false ->
  read_string_body (c :: s) = cons_read c (read_string_body s).
Proof. intros H1 H2 H3. cbn [read_string_body]. now rewrite H1, H2, H3. Qed.

Lemma trail_is_plain d :
  is_trail d = true ->
  (d =? 34)%N = false /\ (d =? 92)%N = false /\ (d <? 32)%N = false.
Proof.
  unfold is_trail. intros Hd. apply andb_true_iff in Hd as [Hlo _].
  apply N.leb_le in Hlo.
  repeat split; [apply N.eqb_neq | apply N.eqb_neq | apply N.ltb_ge]; lia.
Qed.

(** An escape of one letter reads back as its code unit. *)
Lemma read_simple e u s :
  simple_escape e = Some u -> (e =? 117)%N = false ->
  read_string_body (92%N :: e :: s) = cons_read u (read_string_body s).
Proof.
  intros He Hu. cbn [read_string_body].
  change (92 =? 34)%N with false. change (92 =? 92)%N with true. cbv iota.
  now rewrite Hu, He.
Qed.

Lemma read_escaped n : forall s rest,
  length s <= n ->
  read_string_body (json_escape s ++ dq :: rest) = Some (s, rest).
Proof.
  induction n as [|n IH]; intros s rest Hlen.
  - destruct s; [reflexivity | simpl in Hlen; lia].
  - destruct s as [|c s]; [reflexivity|].
    simpl in Hlen. assert (Hs : length s <= n) by lia.
    cbn [json_escape].
    destruct (c =? 8)%N eqn:E8.
    { apply N.eqb_eq in E8 as ->.
      change (lit "\b" ++ json_escape s) with (92%N :: 98%N :: json_escape s).
      change ((92%N :: ?e :: json_escape s) ++ dq :: rest)
        with (92%N :: e :: json_escape s ++ dq :: rest).
      rewrite (read_simple 98 8 _ eq_refl eq_refl).
      rewrite (IH s rest Hs). reflexivity. }
    destruct (c =? 9)%N eqn:E9.
    { apply N.eqb_eq in E9 as ->.
      change (lit "\t" ++ json_escape s) with (92%N :: 116%N :: json_escape s).
      change ((92%N :: ?e :: json_escape s) ++ dq :: rest)
        with (92%N :: e :: json_escape s ++ dq :: rest).
      rewrite (read_simple 116 9 _ eq_refl eq_refl).
      rewrite (IH s rest Hs). reflexivity. }
    destruct (c =? 10)%N eqn:E10.
    { apply N.eqb_eq in E10 as ->.
      change (lit "\n" ++ json_escape s) with (92%N :: 110%N :: json_escape s).
      change ((92%N :: ?e :: json_escape s) ++ dq :: rest)
        with (92%N :: e :: json_escape s ++ dq :: rest).
      rewrite (read_simple 110 10 _ eq_refl eq_refl).
      rewrite (IH s rest Hs). reflexivity. }
    destruct (c =? 12)%N eqn:E12.
    { apply N.eqb_eq in E12 as ->.
      change (lit "\f" ++ json_escape s) with (92%N :: 102%N :: json_escape s).
      change ((92%N :: ?e :: json_escape s) ++ dq :: rest)
        with (92%N :: e :: json_escape s ++ dq :: rest).
      rewrite (read_simple 102 12 _ eq_refl eq_refl).
      rewrite (IH s rest Hs). reflexivity. }
    destruct (c =? 13)%N eqn:E13.
    { apply N.eqb_eq in E13 as ->.
      change (lit "\r" ++ json_escape s) with (92%N :: 114%N :: json_escape s).
      change ((92%N :: ?e :: json_escape s) ++ dq :: rest)
        with (92%N :: e :: json_escape s ++ dq :: rest).
      rewrite (read_simple 114 13 _ eq_refl eq_refl).
      rewrite (IH s rest Hs). reflexivity. }
    destruct (c =? 34)%N eqn:E34.
    { apply N.eqb_eq in E34 as ->.
      change ([92%N; 34%N] ++ json_escape s) with (92%N :: 34%N :: json_escape s).
      change ((92%N :: ?e :: json_escape s) ++ dq :: rest)
        with (92%N :: e :: json_escape s ++ dq :: rest).
      rewrite (read_simple 34 34 _ eq_refl eq_refl).
      rewrite (IH s rest Hs). reflexivity. }
    destruct (c =? 92)%N eqn:E92.
    { apply N.eqb_eq in E92 as ->.
      change ([92%N; 92%N] ++ json_escape s) with (92%N :: 92%N :: json_escape s).
      change ((92%N :: ?e :: json_escape s) ++ dq :: rest)
        with (92%N :: e :: json_escape s ++ dq :: rest).
      rewrite (read_simple 92 92 _ eq_refl eq_refl).
      rewrite (IH s rest Hs). reflexivity. }
    destruct (c <? 32)%N eqn:E32.
    { apply N.ltb_lt in E32. rewrite <- app_assoc.
      rewrite read_unicode_escape by lia. now rewrite (IH s rest Hs). }
    destruct (is_lead c) eqn:El.
    { assert (Hc : (c < 65536)%N).
      { unfold is_lead in El. apply andb_true_iff in El as [_ Hhi].
        apply N.leb_le in Hhi. lia. }
      destruct s as [|d s].
      - change (unicode_escape c ++ dq :: rest)
          with (unicode_escape c ++ [] ++ dq :: rest).
        rewrite read_unicode_escape by exact Hc. reflexivity.
      - destruct (is_trail d) eqn:Et.
        + destruct (trail_is_plain d Et) as (D1 & D2 & D3).
          change ((c :: d :: json_escape s) ++ dq :: rest)
            with (c :: d :: json_escape s ++ dq :: rest).
          rewrite (read_plain c _ E34 E92 E32), (read_plain d _ D1 D2 D3).
          simpl in Hs. rewrite (IH s rest) by lia. reflexivity.
        + rewrite <- app_assoc.
          rewrite read_unicode_escape by exact Hc.
          now rewrite (IH (d :: s) rest Hs). }
    destruct (is_trail c) eqn:Et.
    { assert (Hc : (c < 65536)%N).
      { unfold is_trail in Et. apply andb_true_iff in Et as [_ Hhi].
        apply N.leb_le in Hhi. lia. }
      rewrite <- app_assoc.
      rewrite read_unicode_escape by exact Hc. now rewrite (IH s rest Hs). }
    change ((c :: json_escape s) ++ dq :: rest)
      with (c :: json_escape s ++ dq :: rest).
    rewrite (read_plain c _ E34 E92 E32). now rewrite (IH s rest Hs).
Qed.

(** X16. A string of the metadata document reads back as the text it
    was written from, and the reading stops at its closing quote, whatever
    the text holds: double quotes, backslashes, control characters or
    surrogates without a partner. Two texts are written alike only when
    they are equal. *)
Theorem json_string_reads_back :
  (forall s rest, read_string (q (json_escape s) ++ rest) = Some (s, rest))
  /\ (forall s1 s2, json_escape s1 = json_escape s2 -> s1 = s2)
  /\ (forall s, JSON_stringify (JString s) = q (json_escape s)).
Proof.
  assert (Hread : forall s rest,
            read_string (q (json_escape s) ++ rest) = Some (s, rest)).
  { intros s rest. unfold q, read_string.
    change ((dq :: json_escape s ++ [dq]) ++ rest)
      with (dq :: (json_escape s ++ [dq]) ++ rest).
    change (dq =? 34)%N with true. cbv iota.
    rewrite <- app_assoc. apply (read_escaped (length s)). lia. }
  split; [exact Hread|]. split; [|reflexivity].
  intros s1 s2 Heq.
  pose proof (Hread s1 []) as H1. rewrite Heq, (Hread s2 []) in H1.
  now injection H1.
Qed.

(** A file name with a double quote, a backslash and a line feed. *)
Example json_string_of_a_hostile_name :
  JSON_stringify (JString (lit "a" ++ [dq; 92%N; nl] ++ lit "b"))
  = q (lit "a\" ++ [dq] ++ lit "\\\nb").
Proof. vm_compute. reflexivity. Qed.

(** ** The file a path holds after a run *)

Lemma files_after_writes_other (l : list (str * str)) p : forall m : gmap str str,
  ~ In p (map fst l) ->
  foldl (fun m w => <[fst w := snd w]> m) m l !! p = m !! p.
Proof.
  induction l as [|[k v] l IH]; intros m Hp; [reflexivity|].
  simpl in *. rewrite IH by tauto. apply lookup_insert_ne. tauto.
Qed.

Lemma files_after_last_write (before after : list (str * str)) p text :
  ~ In p (map fst after) ->
  foldl (fun (m : gmap str str) w => <[fst w := snd w]> m) ∅
    (before ++ (p, text) :: after) !! p
  = Some text.
Proof.
  intros Hp. rewrite foldl_app. cbn [foldl fst snd].
  rewrite files_after_writes_other by exact Hp. apply lookup_insert_eq.
Qed.

Section LastWrite.
Context `{Adapters} (disk : Disk).

(** X17. After a completed run a component file holds the component of
    the last valid input written to its path: an earlier valid input with
    the same file identifier is overwritten, though the manifest keeps its
    entry. The path is not that of the barrel or of the metadata
    document. *)
Theorem last_write_wins opts tr tr' files earlier rel later :
  generate disk opts tr = (Ok tt, tr') ->
  globby disk (lit "**/*.svg") (srcDir opts) = inr files ->
  List.filter (is_valid disk opts) files = earlier ++ rel :: later ->
  ~ In (out_path opts rel) (map (out_path opts) later) ->
  out_path opts rel <> index_path opts ->
  out_path opts rel <> metadata_path opts ->
  exists evs,
    tr' = tr ++ evs
    /\ files_written evs !! out_path opts rel = Some (text_of disk opts rel)
    /\ length (manifest disk opts files) = length earlier + 1 + length later.
Proof.
  intros Hrun Hg Hvalid Hlater Hi Hm.
  apply generate_Ok in Hrun as (files' & code & Hg' & _ & _ & Hall & ->).
  rewrite Hg in Hg'. injection Hg' as <-.
  eexists. split; [reflexivity|]. split.
  - unfold files_written.
    match goal with
    | |- foldl _ _ (writes ?evs) !! _ = _ =>
        assert (Hw : writes evs
                     = map (fun r => (out_path opts r, text_of disk opts r))
                         earlier
                       ++ (out_path opts rel, text_of disk opts rel)
                          :: (map (fun r => (out_path opts r,
                                             text_of disk opts r)) later
                              ++ [ (index_path opts, code);
                                   (metadata_path opts,
                                    JSON_stringify
                                      (metadata (manifest disk opts files))) ]))
    end.
    { rewrite !writes_app, (writes_of_loop disk opts files Hall), Hvalid.
      rewrite map_app. cbn [map]. rewrite <- app_assoc. reflexivity. }
    rewrite Hw. apply files_after_last_write.
    rewrite map_app, map_map. cbn [map fst].
    intros Hin. apply in_app_or in Hin as [Hin|[Hin|[Hin|[]]]];
      [contradiction | now apply Hi | now apply Hm].
  - unfold manifest. rewrite length_map, Hvalid, length_app. simpl. lia.
Qed.

End LastWrite.

Section LastWriteInTheTestWorld.
#[local] Existing Instance TestWorld.adapters.
Import TestWorld.

Lemma colliding_run :
  generate colliding_disk defaultOpts []
  = (Ok tt, snd (generate colliding_disk defaultOpts [])).
Proof. vm_compute. reflexivity. Defined.

Lemma last_write_wins_witness :
  (generate colliding_disk defaultOpts []
   = (Ok tt, snd (generate colliding_disk defaultOpts []))
   /\ globby colliding_disk (lit "**/*.svg") (srcDir defaultOpts)
      = inr (map fst colliding)
   /\ List.filter (is_valid colliding_disk defaultOpts) (map fst colliding)
      = [lit "a/icon.svg"] ++ lit "b/icon.svg" :: []
   /\ ~ In (out_path defaultOpts (lit "b/icon.svg"))
          (map (out_path defaultOpts) [])
   /\ out_path defaultOpts (lit "b/icon.svg") <> index_path defaultOpts
   /\ out_path defaultOpts (lit "b/icon.svg") <> metadata_path defaultOpts)
  /\ exists evs,
       snd (generate colliding_disk defaultOpts []) = [] ++ evs
       /\ files_written evs !! out_path defaultOpts (lit "b/icon.svg")
          = Some (text_of colliding_disk defaultOpts (lit "b/icon.svg"))
       /\ length (manifest colliding_disk defaultOpts (map fst colliding))
          = 1 + 1 + 0.
Proof.
  assert (Hi : out_path defaultOpts (lit "b/icon.svg")
               <> index_path defaultOpts) by (vm_compute; discriminate).
  assert (Hm : out_path defaultOpts (lit "b/icon.svg")
               <> metadata_path defaultOpts) by (vm_compute; discriminate).
  assert (Hv : List.filter (is_valid colliding_disk defaultOpts)
                 (map fst colliding)
               = [lit "a/icon.svg"] ++ lit "b/icon.svg" :: [])
    by (vm_compute; reflexivity).
  split.
  { split; [exact colliding_run|]. split; [reflexivity|].
    split; [exact Hv|]. split; [intros []|]. split; assumption. }
  exact (last_write_wins colliding_disk defaultOpts [] _ (map fst colliding)
           [lit "a/icon.svg"] (lit "b/icon.svg") [] colliding_run eq_refl Hv
           (fun Hin : In _ [] => Hin) Hi Hm).
Defined.

End LastWriteInTheTestWorld.
